(** * The pubsub dispatcher of libs/pubsub/pubsub.go

    A shallow embedding of the event dispatching server: the subscription
    index, the publish path, the sender loop and the shutdown sequence.
    Every critical section of the Go code (the region between a Lock and the
    matching Unlock) is one atomic function on the server state; goroutines
    interleave at the granularity of these functions, which the transition
    relation [step] at the end of the model makes explicit. *)

From stdpp Require Import gmap strings list fin_maps.
From Stdlib Require Import ZArith.

Local Open Scope Z_scope.

(** ** Errors

    Go's [error] values.  The three sentinels of pubsub.go come first; the two
    sentinels of the subscription (ErrUnsubscribed, ErrTerminated) are used by
    pubsub.go and declared next to the subscription type.  [Canceled] and
    [DeadlineExceeded] are the two values of [ctx.Err()].  [ErrNew] stands for
    [errors.New], [ErrFmt] for [fmt.Errorf] with its format and arguments
    kept apart, [ErrWrap] for [fmt.Errorf] with a single wrapped cause. *)
Inductive error : Type :=
  | ErrSubscriptionNotFound
  | ErrAlreadySubscribed
  | ErrServerStopped
  | ErrUnsubscribed
  | ErrTerminated
  | ErrOutOfCapacity
  | Canceled
  | DeadlineExceeded
  | ErrNew (msg : string)
  | ErrFmt (format : string) (args : list string)
  | ErrWrap (format : string) (cause : error).

#[global] Instance error_eq_dec : EqDecision error.
Proof. solve_decision. Defined.

(** A Go call either returns or panics. *)
Inductive outcome (A : Type) : Type :=
  | Done (a : A)
  | Crash (msg : string).
Arguments Done {A} a.
Arguments Crash {A} msg.

Definition nil_deref : string := "invalid memory address or nil pointer dereference".
Definition closed_send : string := "send on closed channel".

(** ** Events, messages, queries *)

(** abci/types.Event: a type and a list of key/value attributes. *)
Record Event : Type := mkEvent {
  ev_type : string;
  ev_attributes : list (string * string)
}.

(** The payload [interface{}] is opaque to the dispatcher. *)
Definition Data : Type := string.

(** Addresses of heap-allocated subscriptions and of their index entries. *)
Abbreviation loc := nat.

Record Message : Type := mkMessage {
  msg_subID : string;
  msg_data : Data;
  msg_events : list Event
}.

(** [type item struct { Data; Events }], what travels on the publish channel. *)
Record item : Type := mkItem {
  it_Data : Data;
  it_Events : list Event
}.

(** [type Query interface { Matches(events) (bool, error); String() string }].
    A nil Query is [None] of [option Query]. *)
Record Query : Type := mkQuery {
  q_Matches : list Event -> bool * option error;
  q_String : string
}.

(** [type SubscribeArgs struct] *)
Record SubscribeArgs : Type := mkSubscribeArgs {
  sa_ClientID : string;
  sa_Query : option Query;
  sa_Limit : Z;
  sa_Quota : Z
}.

(** [type UnsubscribeArgs struct] *)
Record UnsubscribeArgs : Type := mkUnsubscribeArgs {
  ua_Subscriber : string;
  ua_ID : string;
  ua_Query : option Query
}.

(** [func (args UnsubscribeArgs) Validate() error] *)
Definition Validate (args : UnsubscribeArgs) : option error :=
  if decide (ua_Subscriber args = "") then
    Some (ErrNew "must specify a subscriber")
  else if decide (ua_ID args = "" /\ ua_Query args = None) then
    Some (ErrFmt "subscription is not fully defined [subscriber=%q]"
                 [ua_Subscriber args])
  else None.

(** ** Subscriptions *)

(** Modelled from the spec: the Subscription type with [newSubscription],
    [publish] and [stop] (subscription.go is not among the sources).  A
    subscription is a bounded FIFO of messages with a hard [limit], a soft
    [quota] and a terminal error that is latched once. *)
Record Subscription : Type := mkSubscription {
  sub_id : string;
  sub_queue : list Message;
  sub_quota : Z;
  sub_limit : Z;
  sub_stopErr : option error
}.

(** Modelled from the spec: [newSubscription(quota, limit)].  The spec's
    invariant is [0 < quota <= limit] after normalisation, with [quota = 0]
    standing for [limit]; SubscribeWithArgs documents that invalid capacity
    arguments are an error, and that error can only come from here.  The
    identifier is [uuid.NewString()], passed in as [id]. *)
Definition newSubscription (id : string) (quota limit : Z)
  : Subscription + error :=
  if decide (limit <= 0 \/ quota < 0 \/ limit < quota) then
    inr (ErrNew "invalid capacity arguments")
  else
    inl {| sub_id := id; sub_queue := [];
           sub_quota := if decide (quota = 0) then limit else quota;
           sub_limit := limit; sub_stopErr := None |}.

(** Modelled from the spec: the [publish] method, a non-blocking enqueue.
    A terminated subscription rejects the message; an enqueue that would push
    the size above [limit] fails with ErrOutOfCapacity; crossing [quota]
    below [limit] still accepts the message. *)
Definition sub_publish (sb : Subscription) (m : Message)
  : Subscription * option error :=
  match sub_stopErr sb with
  | Some e => (sb, Some e)
  | None =>
      if decide (sub_limit sb < Z.of_nat (length (sub_queue sb)) + 1) then
        (sb, Some ErrOutOfCapacity)
      else
        ({| sub_id := sub_id sb; sub_queue := sub_queue sb ++ [m];
            sub_quota := sub_quota sb; sub_limit := sub_limit sb;
            sub_stopErr := None |}, None)
  end.

(** Modelled from the spec: the [stop] method, which latches the
    terminal error idempotently: the first error stays. *)
Definition sub_stop (reason : error) (sb : Subscription) : Subscription :=
  match sub_stopErr sb with
  | Some _ => sb
  | None =>
      {| sub_id := sub_id sb; sub_queue := sub_queue sb;
         sub_quota := sub_quota sb; sub_limit := sub_limit sb;
         sub_stopErr := Some reason |}
  end.

(** ** The subscription index *)

(** Modelled from the spec: [subInfo], one entry of the index (subindex.go is
    not among the sources).  Its fields are the ones SubscribeWithArgs fills
    in; [si_sub] is the pointer to the subscription. *)
Record subInfo : Type := mkSubInfo {
  si_clientID : string;
  si_query : Query;
  si_subID : string;
  si_sub : loc
}.

(** Modelled from the spec: [subInfoSet], a set of [*subInfo].  The key is
    the pointer, the value the (immutable) entry it points to. *)
Abbreviation subInfoSet := (gmap loc subInfo).

(** Modelled from the spec: [subIndex] with its relations byID, byClient and
    byQuery, plus the set of all entries that the sender iterates. *)
Record subIndex : Type := mkSubIndex {
  idx_all : subInfoSet;
  idx_byID : gmap string (loc * subInfo);
  idx_byClient : gmap string subInfoSet;
  idx_byQuery : gmap string subInfoSet
}.

(** Modelled from the spec: [newSubIndex]. *)
Definition newSubIndex : subIndex :=
  {| idx_all := ∅; idx_byID := ∅; idx_byClient := ∅; idx_byQuery := ∅ |}.

(** Modelled from the spec: [findClientID] and [findQuery]; a missing key
    gives the empty set. *)
Definition findClientID (idx : subIndex) (id : string) : subInfoSet :=
  default ∅ (idx_byClient idx !! id).

Definition findQuery (idx : subIndex) (qs : string) : subInfoSet :=
  default ∅ (idx_byQuery idx !! qs).

(** Modelled from the spec: [contains(clientID, queryString)], whether some
    entry is registered under both keys. *)
Definition contains (idx : subIndex) (clientID qs : string) : bool :=
  bool_decide (map_Exists (fun p _ => is_Some (findQuery idx qs !! p))
                          (findClientID idx clientID)).

(** Modelled from the spec: [subInfoSet.withQuery], the subset whose query
    string is [qs]. *)
Definition withQuery (s : subInfoSet) (qs : string) : subInfoSet :=
  filter (fun kv => q_String (si_query kv.2) = qs) s.

(** Insertion of one pointer into the set stored under a key. *)
Definition set_add (k : string) (p : loc) (si : subInfo)
    (m : gmap string subInfoSet) : gmap string subInfoSet :=
  <[k := <[p := si]> (default ∅ (m !! k))]> m.

(** Modelled from the spec: [add(info)] inserts into byID, byClient, byQuery
    and all. *)
Definition add (p : loc) (si : subInfo) (idx : subIndex) : subIndex :=
  {| idx_all := <[p := si]> (idx_all idx);
     idx_byID := <[si_subID si := (p, si)]> (idx_byID idx);
     idx_byClient := set_add (si_clientID si) p si (idx_byClient idx);
     idx_byQuery := set_add (q_String (si_query si)) p si (idx_byQuery idx) |}.

(** Removal of a set of pointers from every set of a relation; a key whose
    set becomes empty is dropped. *)
Definition sets_remove (evict : subInfoSet)
    (m : gmap string subInfoSet) : gmap string subInfoSet :=
  omap (fun s => let s' := s ∖ evict in
                 if decide (s' = ∅) then None else Some s') m.

(** Modelled from the spec: [removeAll(set)] removes each entry from every
    relation. *)
Definition removeAll (evict : subInfoSet) (idx : subIndex) : subIndex :=
  {| idx_all := idx_all idx ∖ evict;
     idx_byID := filter (fun kv => evict !! (kv.2).1 = None) (idx_byID idx);
     idx_byClient := sets_remove evict (idx_byClient idx);
     idx_byQuery := sets_remove evict (idx_byQuery idx) |}.

(** ** The server *)

(** The state of a Go channel that is only ever closed, never sent on:
    [s.done] is nil until [run] has been called. *)
Inductive chan_state : Type := ChNil | ChOpen | ChClosed.

#[global] Instance chan_state_eq_dec : EqDecision chan_state.
Proof. solve_decision. Defined.

(** The closure that [Observe] stores in [s.subs.observe]: it captures the
    queries of the filter and the callback.  A callback is Go code with state
    of its own; it is given here the messages it has been called with so far. *)
Record observer : Type := mkObserver {
  ob_queries : list Query;
  ob_callback : list Message -> Message -> option error
}.

(** Where the sender goroutine of [run] stands: not started, blocked on (or
    about to) receive from the queue, between the fan-out of a message and the
    deferred eviction of [send] (the set and the pending return value of
    [send] are its locals), or exited. *)
Inductive sender_state : Type :=
  | NotStarted
  | Receiving
  | Evicting (evict : subInfoSet) (err : option error)
  | Exited.

(** [type Server struct].  [queue] holds the items sent on [s.queue] that the
    sender has not handled yet, [queue_closed] whether the channel has been
    closed.  [heap] holds the subscriptions, which the server shares with
    its clients through pointers; [next] is the next free address.
    [logger] records the calls of [s.Logger.Error]. *)
Record Server : Type := mkServer {
  queue : list item;
  queue_closed : bool;
  queueCap : Z;
  done : chan_state;
  index : option subIndex;
  observe : option observer;
  observed : list Message;
  heap : gmap loc Subscription;
  next : loc;
  logger : list (string * error);
  sender : sender_state
}.

Definition with_queue (q : list item) (s : Server) : Server :=
  mkServer q (queue_closed s) (queueCap s) (done s) (index s) (observe s)
           (observed s) (heap s) (next s) (logger s) (sender s).
Definition with_queue_closed (b : bool) (s : Server) : Server :=
  mkServer (queue s) b (queueCap s) (done s) (index s) (observe s)
           (observed s) (heap s) (next s) (logger s) (sender s).
Definition with_queueCap (c : Z) (s : Server) : Server :=
  mkServer (queue s) (queue_closed s) c (done s) (index s) (observe s)
           (observed s) (heap s) (next s) (logger s) (sender s).
Definition with_done (d : chan_state) (s : Server) : Server :=
  mkServer (queue s) (queue_closed s) (queueCap s) d (index s) (observe s)
           (observed s) (heap s) (next s) (logger s) (sender s).
Definition with_index (i : option subIndex) (s : Server) : Server :=
  mkServer (queue s) (queue_closed s) (queueCap s) (done s) i (observe s)
           (observed s) (heap s) (next s) (logger s) (sender s).
Definition with_observe (o : option observer) (s : Server) : Server :=
  mkServer (queue s) (queue_closed s) (queueCap s) (done s) (index s) o
           (observed s) (heap s) (next s) (logger s) (sender s).
Definition with_observed (l : list Message) (s : Server) : Server :=
  mkServer (queue s) (queue_closed s) (queueCap s) (done s) (index s)
           (observe s) l (heap s) (next s) (logger s) (sender s).
Definition with_heap (h : gmap loc Subscription) (s : Server) : Server :=
  mkServer (queue s) (queue_closed s) (queueCap s) (done s) (index s)
           (observe s) (observed s) h (next s) (logger s) (sender s).
Definition with_next (n : loc) (s : Server) : Server :=
  mkServer (queue s) (queue_closed s) (queueCap s) (done s) (index s)
           (observe s) (observed s) (heap s) n (logger s) (sender s).
Definition with_logger (l : list (string * error)) (s : Server) : Server :=
  mkServer (queue s) (queue_closed s) (queueCap s) (done s) (index s)
           (observe s) (observed s) (heap s) (next s) l (sender s).
Definition with_sender (x : sender_state) (s : Server) : Server :=
  mkServer (queue s) (queue_closed s) (queueCap s) (done s) (index s)
           (observe s) (observed s) (heap s) (next s) (logger s) x.

(** [type Option func( *Server)].  The fields of the server are private to
    the package, and the only option the package builds is the one of
    [BufferCapacity]. *)
Inductive Option : Type :=
  | SetQueueCap (cap : Z).

Definition apply_option (s : Server) (opt : Option) : Server :=
  match opt with
  | SetQueueCap cap => with_queueCap cap s
  end.

(** [func NewServer(options ...Option) *Server] *)
Definition NewServer (options : list Option) : Server :=
  let s := mkServer [] false 0 ChNil None None [] ∅ 0%nat [] NotStarted in
  let s := foldl apply_option s options in
  with_index (Some newSubIndex) s.

(** [func BufferCapacity(cap int) Option]; panics if [cap < 0]. *)
Definition BufferCapacity (cap : Z) : outcome Option :=
  if decide (cap < 0) then Crash "negative buffer capacity"
  else Done (SetQueueCap cap).

(** The filter that [Observe] compiles from its queries. *)
Definition ob_matches (queries : list Query) (msg : Message) : bool :=
  match queries with
  | [] => true
  | _ => existsb (fun q => let '(m, err) := q_Matches q (msg_events msg) in
                           bool_decide (err = None) && m) queries
  end.

(** A call of the closure stored in [s.subs.observe]. *)
Definition call_observe (ob : observer) (hist : list Message) (msg : Message)
  : option error * list Message :=
  if ob_matches (ob_queries ob) msg then
    (ob_callback ob hist msg, hist ++ [msg])
  else (None, hist).

(** [func (s *Server) Observe(ctx, observe, queries...) error] *)
Definition Observe (cb : option (list Message -> Message -> option error))
    (queries : list Query) (s : Server) : option error * Server :=
  match cb, observe s with
  | None, _ => (Some (ErrNew "observe callback is nil"), s)
  | Some _, Some _ => (Some (ErrNew "an observer is already registered"), s)
  | Some f, None =>
      (None, with_observe (Some {| ob_queries := queries; ob_callback := f |}) s)
  end.

(** [func (s *Server) SubscribeWithArgs(ctx, args) ( *Subscription, error)].
    [uuid] is the identifier that [newSubscription] draws. *)
Definition SubscribeWithArgs (args : SubscribeArgs) (uuid : string) (s : Server)
  : (loc + error) * Server :=
  match sa_Query args with
  | None => (inr (ErrNew "query is nil"), s)
  | Some q =>
      match index s with
      | None => (inr ErrServerStopped, s)
      | Some idx =>
          if contains idx (sa_ClientID args) (q_String q) then
            (inr ErrAlreadySubscribed, s)
          else
            let limit := if decide (sa_Limit args = 0) then 1 else sa_Limit args in
            match newSubscription uuid (sa_Quota args) limit with
            | inr err => (inr err, s)
            | inl sb =>
                let p := next s in
                let si := {| si_clientID := sa_ClientID args; si_query := q;
                             si_subID := sub_id sb; si_sub := p |} in
                (inl p,
                 with_index (Some (add p si idx))
                   (with_next (S p) (with_heap (<[p := sb]> (heap s)) s)))
            end
      end
  end.

(** [func (s *Server) Subscribe(ctx, clientID, query, capacities...)] *)
Definition Subscribe (clientID : string) (query : option Query)
    (capacities : list Z) (uuid : string) (s : Server) : (loc + error) * Server :=
  let args :=
    match capacities with
    | [] => mkSubscribeArgs clientID query 1 0
    | [l] => mkSubscribeArgs clientID query l 0
    | l :: q :: _ => mkSubscribeArgs clientID query l q
    end in
  SubscribeWithArgs args uuid s.

(** The loop [for si := range evict { si.sub.stop(reason) }]. *)
Definition stop_all (evict : subInfoSet) (reason : error)
    (h : gmap loc Subscription) : gmap loc Subscription :=
  map_fold (fun _ si h => alter (sub_stop reason) (si_sub si) h) h evict.

(** [func (s *Server) removeSubs(evict subInfoSet, reason error)]; the caller
    holds the lock.  On a nil index [removeAll] has nothing to work on. *)
Definition removeSubs (evict : subInfoSet) (reason : error) (s : Server)
  : outcome Server :=
  let s := with_heap (stop_all evict reason (heap s)) s in
  match index s with
  | None => Crash nil_deref
  | Some idx => Done (with_index (Some (removeAll evict idx)) s)
  end.

(** [func (s *Server) Unsubscribe(ctx, args) error] *)
Definition Unsubscribe (args : UnsubscribeArgs) (s : Server)
  : outcome (option error * Server) :=
  match Validate args with
  | Some err => Done (Some err, s)
  | None =>
      match index s with
      | None => Done (Some ErrServerStopped, s)
      | Some idx =>
          let evict :=
            if decide (ua_Subscriber args ≠ "") then
              let evict := findClientID idx (ua_Subscriber args) in
              match ua_Query args with
              | Some q => Done (withQuery evict (q_String q))
              | None => Done evict
              end
            else
              match ua_Query args with
              | Some q => Done (findQuery idx (q_String q))
              | None => Crash nil_deref
              end in
          match evict with
          | Crash m => Crash m
          | Done evict =>
              if decide (size evict = 0%nat) then
                Done (Some ErrSubscriptionNotFound, s)
              else
                match removeSubs evict ErrUnsubscribed s with
                | Crash m => Crash m
                | Done s' => Done (None, s')
                end
          end
      end
  end.

(** [func (s *Server) UnsubscribeAll(ctx, clientID) error].  There is no test
    of the index here: on a nil index [findClientID] has nothing to read. *)
Definition UnsubscribeAll (clientID : string) (s : Server)
  : outcome (option error * Server) :=
  match index s with
  | None => Crash nil_deref
  | Some idx =>
      let evict := findClientID idx clientID in
      if decide (size evict = 0%nat) then
        Done (Some ErrSubscriptionNotFound, s)
      else
        match removeSubs evict ErrUnsubscribed s with
        | Crash m => Crash m
        | Done s' => Done (None, s')
        end
  end.

(** [func (s *Server) NumClients() int] reads [s.subs.index.byClient]. *)
Definition NumClients (s : Server) : outcome nat :=
  match index s with
  | None => Crash nil_deref
  | Some idx => Done (size (idx_byClient idx))
  end.

(** [func (s *Server) NumClientSubscriptions(clientID string) int] *)
Definition NumClientSubscriptions (clientID : string) (s : Server) : outcome nat :=
  match index s with
  | None => Crash nil_deref
  | Some idx => Done (size (findClientID idx clientID))
  end.

(** ** Publishing *)

(** The three communications of the [select] in [publish]. *)
Inductive select_case : Type := CaseDone | CaseCtx | CaseSend.

(** Room on the publish channel: its buffer, plus the sender itself when it
    is blocked on the receive. *)
Definition queue_room (s : Server) : Z :=
  queueCap s + match sender s with Receiving => 1 | _ => 0 end.

(** Which communications can proceed.  A receive from a nil channel never
    does; a receive from a closed channel always does; a send proceeds when
    there is room, and, as the Go specification has it, a send on a closed
    channel proceeds by panicking.  [ctx] is [ctx.Err()]: [None] as long as the
    context is not done. *)
Definition can_proceed (c : select_case) (ctx : option error) (s : Server) : bool :=
  match c with
  | CaseDone => bool_decide (done s = ChClosed)
  | CaseCtx => bool_decide (is_Some ctx)
  | CaseSend => queue_closed s
                || bool_decide (Z.of_nat (length (queue s)) < queue_room s)
  end.

(** [func (s *Server) publish(ctx, data, events) error].  [select] picks one
    of the communications that can proceed; [c] is its pick, and the result
    is [None] when [c] cannot proceed (with no communication able to proceed
    the call blocks). *)
Definition publish (c : select_case) (ctx : option error) (data : Data)
    (events : list Event) (s : Server) : option (outcome (option error * Server)) :=
  if can_proceed c ctx s then
    match c with
    | CaseDone => Some (Done (Some ErrServerStopped, s))
    | CaseCtx => Some (Done (ctx, s))
    | CaseSend =>
        if queue_closed s then Some (Crash closed_send)
        else Some (Done (None, with_queue (queue s ++ [mkItem data events]) s))
    end
  else None.

(** [func (s *Server) Publish(ctx, msg) error] *)
Definition Publish (c : select_case) (ctx : option error) (msg : Data) (s : Server) :=
  publish c ctx msg [] s.

(** [func (s *Server) PublishWithEvents(ctx, msg, events) error] *)
Definition PublishWithEvents (c : select_case) (ctx : option error) (msg : Data)
    (events : list Event) (s : Server) :=
  publish c ctx msg events s.

(** ** Start, stop and the sender *)

(** [func (s *Server) run()]: installs [s.done] and [s.stop] and starts the
    shutdown monitor and the sender. *)
Definition run (s : Server) : Server :=
  with_sender Receiving (with_done ChOpen s).

(** [func (s *Server) OnStart() error] *)
Definition OnStart (s : Server) : option error * Server := (None, run s).

(** [func (s *Server) OnStop()] calls [s.stop], the cancel function that
    [run] installed; it is nil before. *)
Definition OnStop (s : Server) : outcome Server :=
  match done s with
  | ChNil => Crash nil_deref
  | _ => Done (with_done ChClosed s)
  end.

(** The shutdown monitor of [run]: once the context has ended and no publish
    call is active, it closes the queue. *)
Definition monitor_close (s : Server) : outcome Server :=
  if queue_closed s then Crash "close of closed channel"
  else Done (with_queue_closed true s).

(** The loop of [send] over [s.subs.index.all].  Go leaves the order in which
    [range] visits a map open: [order] is the order this run visits the
    entries in.  The heap changes as messages are enqueued; [evict] collects
    the entries whose subscription refused the message. *)
Fixpoint fanout (data : Data) (events : list Event) (order : list (loc * subInfo))
    (h : gmap loc Subscription) (evict : subInfoSet)
  : outcome (option error * gmap loc Subscription * subInfoSet) :=
  match order with
  | [] => Done (None, h, evict)
  | (p, si) :: rest =>
      match q_Matches (si_query si) events with
      | (_, Some err) =>
          Done (Some (ErrWrap "match failed against query: %w" err), h, evict)
      | (false, None) => fanout data events rest h evict
      | (true, None) =>
          match h !! si_sub si with
          | None => Crash nil_deref
          | Some sb =>
              let '(sb', err) :=
                sub_publish sb (mkMessage (sub_id sb) data events) in
              fanout data events rest (<[si_sub si := sb']> h)
                     (match err with
                      | Some _ => <[p := si]> evict
                      | None => evict
                      end)
          end
      end
  end.

(** The orders in which a [range] over the index may visit its entries. *)
Definition iteration_order (idx : subIndex) (order : list (loc * subInfo)) : Prop :=
  order ≡ₚ map_to_list (idx_all idx).

(** The part of [send] that runs under the shared lock: the observer, then
    the fan-out.  It yields the return value of [send] and the eviction set
    that the deferred function will look at. *)
Definition send_locked (data : Data) (events : list Event)
    (order : list (loc * subInfo)) (s : Server)
  : outcome (option error * subInfoSet * Server) :=
  let loop (s : Server) :=
    match index s with
    | None => Crash nil_deref
    | Some _ =>
        match fanout data events order (heap s) ∅ with
        | Crash m => Crash m
        | Done (err, h, evict) => Done (err, evict, with_heap h s)
        end
    end in
  match observe s with
  | None => loop s
  | Some ob =>
      let '(err, hist) := call_observe ob (observed s) (mkMessage "" data events) in
      let s := with_observed hist s in
      match err with
      | Some e => Done (Some (ErrWrap "observer failed on message: %w" e), ∅, s)
      | None => loop s
      end
  end.

(** The deferred function of [send], run under the exclusive lock after the
    shared one has been released. *)
Definition send_evict (evict : subInfoSet) (s : Server) : outcome Server :=
  if decide (size evict ≠ 0%nat) then removeSubs evict ErrTerminated s
  else Done s.

(** [func (s *Server) send(data, events) error], when nothing else runs
    between the release of the shared lock and the deferred eviction. *)
Definition send (data : Data) (events : list Event)
    (order : list (loc * subInfo)) (s : Server) : outcome (option error * Server) :=
  match send_locked data events order s with
  | Crash m => Crash m
  | Done (err, evict, s1) =>
      match send_evict evict s1 with
      | Crash m => Crash m
      | Done s2 => Done (err, s2)
      end
  end.

(** [s.Logger.Error("Error sending event", "err", err)] when [err != nil]. *)
Definition log_send_error (err : option error) (s : Server) : Server :=
  match err with
  | None => s
  | Some e => with_logger (logger s ++ [("Error sending event", e)]) s
  end.

(** One turn of the loop [for it := range s.queue] of the sender. *)
Definition sender_turn (it : item) (order : list (loc * subInfo)) (s : Server)
  : outcome Server :=
  match send (it_Data it) (it_Events it) order s with
  | Crash m => Crash m
  | Done (err, s') => Done (log_send_error err s')
  end.

(** What the sender does once the queue is closed and drained: it terminates
    every subscriber and sets the index to nil. *)
Definition sender_exit (s : Server) : outcome Server :=
  match index s with
  | None => Crash nil_deref
  | Some idx =>
      Done (with_sender Exited
             (with_index None
               (with_heap (stop_all (idx_all idx) ErrTerminated (heap s)) s)))
  end.

(** ** The server as a transition system

    One step is one critical section of one goroutine. *)
Inductive step : Server -> Server -> Prop :=
  | step_subscribe args uuid s r s' :
      SubscribeWithArgs args uuid s = (r, s') -> step s s'
  | step_unsubscribe args s r s' :
      Unsubscribe args s = Done (r, s') -> step s s'
  | step_unsubscribe_all clientID s r s' :
      UnsubscribeAll clientID s = Done (r, s') -> step s s'
  | step_observe cb queries s r s' :
      Observe cb queries s = (r, s') -> step s s'
  | step_publish c ctx data events s r s' :
      publish c ctx data events s = Some (Done (r, s')) -> step s s'
  | step_start s :
      sender s = NotStarted -> step s (run s)
  | step_stop s s' :
      OnStop s = Done s' -> step s s'
  | step_monitor s s' :
      done s = ChClosed -> monitor_close s = Done s' -> step s s'
  | step_send_locked it rest idx order s err evict s1 :
      sender s = Receiving ->
      queue s = it :: rest ->
      index s = Some idx ->
      iteration_order idx order ->
      send_locked (it_Data it) (it_Events it) order (with_queue rest s)
        = Done (err, evict, s1) ->
      step s (with_sender (Evicting evict err) s1)
  | step_send_evict evict err s s' :
      sender s = Evicting evict err ->
      send_evict evict s = Done s' ->
      step s (log_send_error err (with_sender Receiving s'))
  | step_exit s s' :
      sender s = Receiving ->
      queue s = [] ->
      queue_closed s = true ->
      sender_exit s = Done s' ->
      step s s'.

(** The states a server can be in: those reached from a new server. *)
Definition reachable (s : Server) : Prop :=
  exists options, rtc step (NewServer options) s.

(** ** Well-formedness of the index and of the server *)

(** The index is coherent when byClient and byQuery file exactly the entries
    of [idx_all], each under its own client ID and query string. *)
Record idx_coherent (idx : subIndex) : Prop := mkCoherent {
  coh_client : forall c p si,
    findClientID idx c !! p = Some si
    <-> idx_all idx !! p = Some si /\ si_clientID si = c;
  coh_query : forall q p si,
    findQuery idx q !! p = Some si
    <-> idx_all idx !! p = Some si /\ q_String (si_query si) = q
}.

(** P1 of the spec: no two entries share client ID and query string. *)
Definition idx_unique (idx : subIndex) : Prop :=
  forall p1 p2 si1 si2,
    idx_all idx !! p1 = Some si1 -> idx_all idx !! p2 = Some si2 ->
    si_clientID si1 = si_clientID si2 ->
    q_String (si_query si1) = q_String (si_query si2) ->
    p1 = p2.

(** The invariant of the server.  While the index is there it is coherent
    and has no duplicate; each of its entries points to the subscription at
    its own address, which is allocated and live.  Addresses in use lie below
    [next], also those of an eviction that the sender still has to carry
    out. *)
Record inv (s : Server) : Prop := mkInv {
  inv_coherent : forall idx, index s = Some idx -> idx_coherent idx;
  inv_unique : forall idx, index s = Some idx -> idx_unique idx;
  inv_live : forall idx p si,
    index s = Some idx -> idx_all idx !! p = Some si ->
    si_sub si = p /\ (p < next s)%nat
    /\ exists sb, heap s !! p = Some sb /\ sub_stopErr sb = None;
  inv_heap : forall p, is_Some (heap s !! p) -> (p < next s)%nat;
  inv_evict : forall evict err p si,
    sender s = Evicting evict err -> evict !! p = Some si ->
    si_sub si = p /\ (p < next s)%nat
}.

(** The life cycle of the server as its channels show it: [s.done] is nil
    exactly until [run]; the queue is closed only after the context has
    ended; the index is nil only once the sender has exited. *)
Record lifecycle (s : Server) : Prop := mkLifecycle {
  lc_new : sender s = NotStarted -> done s = ChNil;
  lc_closed : queue_closed s = true -> done s = ChClosed;
  lc_index : index s = None -> sender s = Exited
}.

(** The server after shutdown. *)
Record stopped (s : Server) : Prop := mkStopped {
  st_index : index s = None;
  st_sender : sender s = Exited;
  st_queue : queue_closed s = true;
  st_done : done s = ChClosed
}.

(** The entries of the index that an unsubscribe request designates: those
    of the subscriber, restricted to the query when the request has one. *)
Definition selected (args : UnsubscribeArgs) (si : subInfo) : Prop :=
  si_clientID si = ua_Subscriber args
  /\ (forall q, ua_Query args = Some q -> q_String (si_query si) = q_String q).

(** ** What a fan-out does, read off the iteration order *)

(** The error of the first query whose evaluation fails. *)
Fixpoint match_error (events : list Event) (order : list (loc * subInfo))
  : option error :=
  match order with
  | [] => None
  | (_, si) :: rest =>
      match q_Matches (si_query si) events with
      | (_, Some err) => Some err
      | (_, None) => match_error events rest
      end
  end.

(** The entries the loop reaches before any evaluation fails and whose query
    matches. *)
Fixpoint delivered (events : list Event) (order : list (loc * subInfo))
  : list (loc * subInfo) :=
  match order with
  | [] => []
  | (p, si) :: rest =>
      match q_Matches (si_query si) events with
      | (_, Some _) => []
      | (false, None) => delivered events rest
      | (true, None) => (p, si) :: delivered events rest
      end
  end.

(** The message that [send] hands to a subscription. *)
Definition message_for (sb : Subscription) (data : Data) (events : list Event)
  : Message :=
  mkMessage (sub_id sb) data events.

(** Whether the subscription at [p] refuses the message. *)
Definition refuses (h : gmap loc Subscription) (data : Data)
    (events : list Event) (p : loc) : Prop :=
  exists sb, h !! p = Some sb
             /\ (sub_publish sb (message_for sb data events)).2 <> None.

(** What the observer answers for a message, if there is one: its verdict,
    and the messages the callback has seen afterwards. *)
Definition observer_verdict (s : Server) (data : Data) (events : list Event)
  : option error :=
  match observe s with
  | None => None
  | Some ob => (call_observe ob (observed s) (mkMessage "" data events)).1
  end.

Definition observer_seen (s : Server) (data : Data) (events : list Event)
  : list Message :=
  match observe s with
  | None => observed s
  | Some ob => (call_observe ob (observed s) (mkMessage "" data events)).2
  end.

(** ** Sample queries and servers, used to run the model *)

Definition query_any : Query :=
  {| q_Matches := fun _ => (true, None); q_String := "any" |}.

Definition query_none : Query :=
  {| q_Matches := fun _ => (false, None); q_String := "none" |}.

Definition query_broken : Query :=
  {| q_Matches := fun _ => (false, Some (ErrNew "malformed"));
     q_String := "broken" |}.

Definition subscribe_as (client : string) (q : Query) (limit : Z) (uuid : string)
    (s : Server) : Server :=
  (SubscribeWithArgs (mkSubscribeArgs client (Some q) limit 0) uuid s).2.

(** A started server with two subscribers, alice first. *)
Definition server_two : Server :=
  subscribe_as "bob" query_any 1 "uuid-2"
    (subscribe_as "alice" query_any 1 "uuid-1" (run (NewServer []))).

(** A started server where alice's query cannot be evaluated. *)
Definition server_broken : Server :=
  subscribe_as "bob" query_any 1 "uuid-2"
    (subscribe_as "alice" query_broken 1 "uuid-1" (run (NewServer []))).

(** The index entry that [subscribe_as] files at address [p]. *)
Definition entry (p : loc) (client : string) (q : Query) (uuid : string)
  : loc * subInfo :=
  (p, mkSubInfo client q uuid p).

(** An observer callback that fails on every message. *)
Definition observer_failing : list Message -> Message -> option error :=
  fun _ _ => Some (ErrNew "index unavailable").

(** [server_two] with the failing observer on all messages. *)
Definition server_vetoed : Server :=
  (Observe (Some observer_failing) [] server_two).2.

(** The sender running to its end once the server is stopped: the cancel of
    [OnStop], the shutdown monitor, the exit of the sender. *)
Definition shutdown (s : Server) : outcome Server :=
  match OnStop s with
  | Crash m => Crash m
  | Done s1 =>
      match monitor_close s1 with
      | Crash m => Crash m
      | Done s2 => sender_exit s2
      end
  end.

(** [server_two] stopped, with its queue closed, before the sender exits. *)
Definition server_closing : Server :=
  with_queue_closed true (with_done ChClosed server_two).

(** [server_two] after shutdown. *)
Definition server_stopped : Server :=
  match shutdown server_two with
  | Done s => s
  | Crash _ => server_two
  end.

(** A started server with three subscribers; bob's query cannot be
    evaluated. *)
Definition server_three : Server :=
  subscribe_as "carol" query_any 1 "uuid-3"
    (subscribe_as "bob" query_broken 1 "uuid-2"
      (subscribe_as "alice" query_any 1 "uuid-1" (run (NewServer [])))).

(** A started server where bob holds two subscriptions. *)
Definition server_bob : Server :=
  subscribe_as "bob" query_none 1 "uuid-2"
    (subscribe_as "bob" query_any 1 "uuid-1" (run (NewServer []))).

(** ** The rest of the server's interface *)

(** [func (s *Server) BufferCapacity() int { return cap(s.queue) }]: the
    capacity that the queue was made with. *)
Definition Server_BufferCapacity (s : Server) : Z := queueCap s.

(** [func (s *Server) OnReset() error { return nil }] *)
Definition OnReset (s : Server) : option error * Server := (None, s).

(** The channel [s.exited]: nil until [run] makes it, closed by the sender
    when it returns. *)
Definition exited (s : Server) : chan_state :=
  match sender s with
  | NotStarted => ChNil
  | Exited => ChClosed
  | _ => ChOpen
  end.

(** [func (s *Server) Wait() { <-s.exited; s.BaseService.Wait() }]: whether
    the receive from [s.exited] can proceed.  What the base service waits for
    afterwards is not part of this package. *)
Definition Wait_proceeds (s : Server) : bool :=
  bool_decide (exited s = ChClosed).

(** The options that a caller can pass to [NewServer]: the values that
    [BufferCapacity] returns. *)
Definition valid_options (options : list Option) : Prop :=
  Forall (fun opt => exists cap, BufferCapacity cap = Done opt) options.

(** A started server with a subscription registered under the empty client
    ID, next to bob's. *)
Definition server_anonymous : Server :=
  subscribe_as "bob" query_any 1 "uuid-2"
    (subscribe_as "" query_any 1 "uuid-1" (run (NewServer []))).

(** * Properties *)

(** ** The index *)

Section index_lemmas.
Implicit Types (idx : subIndex) (evict s : subInfoSet) (p : loc) (si : subInfo).

Lemma sets_remove_default evict (m : gmap string subInfoSet) k :
  default ∅ (sets_remove evict m !! k) = default ∅ (m !! k) ∖ evict.
Proof.
  unfold sets_remove. rewrite lookup_omap.
  destruct (m !! k) as [s|]; simpl.
  - case_decide as He; simpl.
    + symmetry. exact He.
    + reflexivity.
  - apply map_eq. intros i. rewrite lookup_difference, !lookup_empty.
    by destruct (evict !! i).
Qed.

Lemma findClientID_removeAll evict idx c :
  findClientID (removeAll evict idx) c = findClientID idx c ∖ evict.
Proof. apply sets_remove_default. Qed.

Lemma findQuery_removeAll evict idx q :
  findQuery (removeAll evict idx) q = findQuery idx q ∖ evict.
Proof. apply sets_remove_default. Qed.

Lemma set_add_default k p si (m : gmap string subInfoSet) k' :
  default ∅ (set_add k p si m !! k')
  = if decide (k = k') then <[p := si]> (default ∅ (m !! k'))
    else default ∅ (m !! k').
Proof.
  unfold set_add. case_decide as Hk.
  - subst. by rewrite lookup_insert_eq.
  - by rewrite lookup_insert_ne.
Qed.

Lemma findClientID_add p si idx c :
  findClientID (add p si idx) c
  = if decide (si_clientID si = c) then <[p := si]> (findClientID idx c)
    else findClientID idx c.
Proof. apply set_add_default. Qed.

Lemma findQuery_add p si idx q :
  findQuery (add p si idx) q
  = if decide (q_String (si_query si) = q) then <[p := si]> (findQuery idx q)
    else findQuery idx q.
Proof. apply set_add_default. Qed.

Lemma lookup_withQuery s q p si :
  withQuery s q !! p = Some si <-> s !! p = Some si /\ q_String (si_query si) = q.
Proof. unfold withQuery. by rewrite map_lookup_filter_Some. Qed.
End index_lemmas.

Lemma newSubIndex_coherent : idx_coherent newSubIndex.
Proof.
  split; intros; unfold findClientID, findQuery; simpl;
    rewrite !lookup_empty; simpl; rewrite !lookup_empty; naive_solver.
Qed.

Lemma contains_spec idx c q :
  idx_coherent idx ->
  contains idx c q = true
  <-> exists p si, idx_all idx !! p = Some si
                   /\ si_clientID si = c /\ q_String (si_query si) = q.
Proof.
  intros [Hc Hq]. unfold contains. rewrite bool_decide_eq_true, map_Exists_lookup.
  split.
  - intros (p & si & Hp & [si' Hp']).
    apply Hc in Hp as [Hp <-]. apply Hq in Hp' as [Hp' <-].
    exists p, si. split; [done|]. split; [done|]. congruence.
  - intros (p & si & Hp & <- & <-). exists p, si. split.
    + by apply Hc.
    + exists si. by apply Hq.
Qed.

Lemma add_coherent p si idx :
  idx_coherent idx -> idx_all idx !! p = None -> idx_coherent (add p si idx).
Proof.
  intros [Hc Hq] Hfresh. split.
  - intros c p' si'. rewrite findClientID_add. simpl.
    case_decide as Hk; destruct (decide (p = p')) as [->|Hp];
      rewrite ?lookup_insert_eq, ?lookup_insert_ne by done; rewrite ?Hc;
      naive_solver.
  - intros q p' si'. rewrite findQuery_add. simpl.
    case_decide as Hk; destruct (decide (p = p')) as [->|Hp];
      rewrite ?lookup_insert_eq, ?lookup_insert_ne by done; rewrite ?Hq;
      naive_solver.
Qed.

Lemma add_unique p si idx :
  idx_coherent idx -> idx_unique idx -> idx_all idx !! p = None ->
  contains idx (si_clientID si) (q_String (si_query si)) = false ->
  idx_unique (add p si idx).
Proof.
  intros Hcoh Hu Hfresh Hnc p1 p2 si1 si2. simpl.
  assert (Hno : forall p' si', idx_all idx !! p' = Some si' ->
            si_clientID si' = si_clientID si ->
            q_String (si_query si') = q_String (si_query si) -> False).
  { intros p' si' H1 H2 H3. apply not_true_iff_false in Hnc. apply Hnc.
    apply contains_spec; [done|]. by exists p', si'. }
  destruct (decide (p = p1)) as [<-|H1]; destruct (decide (p = p2)) as [<-|H2];
    rewrite ?lookup_insert_eq, ?lookup_insert_ne by done; try done.
  - intros [= <-] Hp2 Hc Hq. destruct (Hno p2 si2); done.
  - intros Hp1 [= <-] Hc Hq. destruct (Hno p1 si1); done.
  - apply Hu.
Qed.

Lemma removeAll_coherent evict idx :
  idx_coherent idx -> idx_coherent (removeAll evict idx).
Proof.
  intros [Hc Hq]. split.
  - intros c p si. rewrite findClientID_removeAll. simpl.
    rewrite !lookup_difference_Some, Hc. naive_solver.
  - intros q p si. rewrite findQuery_removeAll. simpl.
    rewrite !lookup_difference_Some, Hq. naive_solver.
Qed.

Lemma removeAll_unique evict idx :
  idx_unique idx -> idx_unique (removeAll evict idx).
Proof.
  intros Hu p1 p2 si1 si2. simpl. rewrite !lookup_difference_Some.
  intros [H1 _] [H2 _]. by apply Hu.
Qed.

(** ** Subscriptions and the heap *)

Lemma sub_stop_live reason sb :
  sub_stopErr sb = None -> sub_stopErr (sub_stop reason sb) = Some reason.
Proof. unfold sub_stop. by intros ->. Qed.

Lemma sub_stop_idem reason sb :
  sub_stop reason (sub_stop reason sb) = sub_stop reason sb.
Proof. unfold sub_stop. destruct (sub_stopErr sb) eqn:E; simpl; by rewrite ?E. Qed.

Lemma sub_stop_queue reason sb : sub_queue (sub_stop reason sb) = sub_queue sb.
Proof. unfold sub_stop. by destruct (sub_stopErr sb). Qed.

Lemma sub_publish_stopErr sb m :
  sub_stopErr (sub_publish sb m).1 = sub_stopErr sb.
Proof.
  unfold sub_publish. destruct (sub_stopErr sb) eqn:E; [done|].
  case_decide; simpl; by rewrite ?E.
Qed.

Lemma sub_publish_ok sb m :
  (sub_publish sb m).2 = None ->
  sub_queue (sub_publish sb m).1 = sub_queue sb ++ [m].
Proof.
  unfold sub_publish. destruct (sub_stopErr sb); [done|]. by case_decide.
Qed.

Lemma sub_publish_refused sb m :
  (sub_publish sb m).2 <> None -> (sub_publish sb m).1 = sb.
Proof.
  unfold sub_publish. destruct (sub_stopErr sb); [done|]. by case_decide.
Qed.

(** What [stop_all] leaves at an address: the subscription stopped when some
    entry of the set points to it, and untouched otherwise. *)
Lemma lookup_stop_all evict reason h l :
  stop_all evict reason h !! l
  = if decide (map_Exists (fun _ si => si_sub si = l) evict)
    then sub_stop reason <$> h !! l else h !! l.
Proof.
  unfold stop_all.
  set (P := fun (r : gmap loc Subscription) (m : subInfoSet) =>
    forall l, r !! l =
      if decide (map_Exists (fun _ si => si_sub si = l) m)
      then sub_stop reason <$> h !! l else h !! l).
  cut (P (map_fold (fun _ si h => alter (sub_stop reason) (si_sub si) h) h evict)
         evict); [intros HP; apply HP|].
  apply map_fold_weak_ind; unfold P; clear P l.
  - intros l. case_decide as He; [|done]. by apply map_Exists_empty in He.
  - intros i x m r Hi IH l. rewrite lookup_alter.
    destruct (decide (si_sub x = l)) as [<-|Hne].
    + rewrite decide_True by by apply map_Exists_insert_2_1.
      rewrite IH. case_decide; [|done].
      destruct (h !! si_sub x); simpl; [|done]. by rewrite sub_stop_idem.
    + rewrite IH. case_decide as H1; case_decide as H2; try done.
      * destruct H2. by apply map_Exists_insert_2_2.
      * apply map_Exists_insert in H2 as [?|?]; done.
Qed.

(** When every entry of the set points to the subscription at its own
    address, [stop_all] stops the addresses of the set and no other. *)
Lemma lookup_stop_all_own evict reason h l :
  (forall p si, evict !! p = Some si -> si_sub si = p) ->
  stop_all evict reason h !! l
  = if decide (is_Some (evict !! l)) then sub_stop reason <$> h !! l else h !! l.
Proof.
  intros Hown. rewrite lookup_stop_all.
  case_decide as H1; case_decide as H2; try done.
  - destruct H2. apply map_Exists_lookup in H1 as (p & si & Hp & <-).
    rewrite (Hown _ _ Hp). eauto.
  - destruct H1. destruct H2 as [si Hl]. apply map_Exists_lookup.
    exists l, si. split; [done|]. by apply Hown.
Qed.

(** ** The fan-out loop *)

Lemma delivered_subset events order x :
  x ∈ delivered events order -> x ∈ order.
Proof.
  induction order as [|[p si] rest IH]; simpl; [done|].
  destruct (q_Matches (si_query si) events) as [[|] [err|]]; set_solver.
Qed.

Lemma delivered_no_error events order :
  match_error events order = None ->
  forall p si, (p, si) ∈ delivered events order
    <-> (p, si) ∈ order /\ (q_Matches (si_query si) events).1 = true.
Proof.
  induction order as [|[p0 si0] rest IH]; simpl; intros He p si.
  - set_solver.
  - destruct (q_Matches (si_query si0) events) as [[|] [err|]] eqn:Hm;
      try done; specialize (IH He p si); rewrite ?elem_of_cons, IH.
    + split.
      * intros [Heq|[? ?]]; [|by auto]. injection Heq as -> ->.
        rewrite Hm. auto.
      * intros [[Heq|?] ?]; auto.
    + split; [intros [? ?]; by auto|]. intros [[Heq|?] Ht]; [|by auto].
      injection Heq as -> ->. rewrite Hm in Ht. done.
Qed.

(** The result of the loop: the first evaluation error if there is one; each
    delivered entry has had the message offered to its subscription; the
    refusing ones are added to the set; everything else is as before. *)
Lemma fanout_spec data events order h ev :
  (forall p si, (p, si) ∈ order -> si_sub si = p /\ is_Some (h !! p)) ->
  NoDup order.*1 ->
  (forall p, is_Some (ev !! p) -> p ∉ order.*1) ->
  exists h' ev',
    fanout data events order h ev
      = Done (ErrWrap "match failed against query: %w" <$> match_error events order,
              h', ev')
    /\ (forall l, l ∉ (delivered events order).*1 -> h' !! l = h !! l)
    /\ (forall p si sb, (p, si) ∈ delivered events order -> h !! p = Some sb ->
          h' !! p = Some (sub_publish sb (message_for sb data events)).1)
    /\ (forall p si, ev' !! p = Some si <->
          ev !! p = Some si
          \/ ((p, si) ∈ delivered events order /\ refuses h data events p)).
Proof.
  revert h ev. induction order as [|[p si] rest IH]; intros h ev Hown Hnd Hev.
  { exists h, ev. simpl. repeat split; try done; set_solver. }
  rewrite fmap_cons in Hnd. apply NoDup_cons in Hnd as [Hp Hnd]. simpl in Hp.
  assert (Hrest : forall h1 : gmap loc Subscription, (forall l, l ≠ p -> h1 !! l = h !! l) ->
            forall p' si', (p', si') ∈ rest -> si_sub si' = p' /\ is_Some (h1 !! p')).
  { intros h1 Hh1 p' si' Hin. destruct (Hown p' si') as [? ?]; [set_solver|].
    split; [done|]. rewrite Hh1; [done|]. intros ->. apply Hp.
    apply list_elem_of_fmap. by exists (p, si'). }
  simpl. destruct (q_Matches (si_query si) events) as [[|] [err|]] eqn:Hm.
  - exists h, ev. repeat split; try done; set_solver.
  - destruct (Hown p si) as [Hsub [sb Hsb]]; [set_solver|].
    rewrite Hsub, Hsb.
    destruct (sub_publish sb (mkMessage (sub_id sb) data events)) as [sb' e] eqn:Hpub.
    set (ev1 := match e with Some _ => <[p := si]> ev | None => ev end).
    destruct (IH (<[p := sb']> h) ev1) as (h' & ev' & -> & Hout & Hin & Hevict).
    { apply Hrest. intros l Hl. by rewrite lookup_insert_ne. }
    { done. }
    { intros p' Hp'. assert (p' = p \/ is_Some (ev !! p')) as [->|Hx].
      { unfold ev1 in Hp'. destruct e; [|by right].
        destruct (decide (p = p')) as [->|]; [by left|].
        right. by rewrite lookup_insert_ne in Hp'. }
      - done.
      - specialize (Hev _ Hx). set_solver. }
    exists h', ev'. split; [done|].
    assert (Hpd : p ∉ (delivered events rest).*1).
    { intros Hd. apply Hp. apply list_elem_of_fmap in Hd as ([p' si'] & -> & Hd).
      apply list_elem_of_fmap. exists (p', si'). split; [done|].
      by apply delivered_subset in Hd. }
    assert (Hevp : ev !! p = None).
    { destruct (ev !! p) eqn:E; [|done]. destruct (Hev p); [eauto|set_solver]. }
    split; [|split].
    + intros l Hl. rewrite fmap_cons, not_elem_of_cons in Hl. destruct Hl as [Hlp Hl].
      rewrite Hout by done. by rewrite lookup_insert_ne.
    + intros p' si' sb0 Hd Hsb0. apply elem_of_cons in Hd as [[= -> ->]|Hd].
      * rewrite Hout by done. rewrite lookup_insert_eq.
        assert (sb0 = sb) as -> by congruence.
        unfold message_for. by rewrite Hpub.
      * assert (p' ≠ p).
        { intros ->. apply Hpd. apply list_elem_of_fmap. by exists (p, si'). }
        apply (Hin p' si' sb0 Hd). by rewrite lookup_insert_ne.
    + intros p' si'. rewrite Hevict, elem_of_cons.
      assert (Href : forall l, l ≠ p ->
                refuses (<[p := sb']> h) data events l <-> refuses h data events l).
      { intros l Hl. unfold refuses. by rewrite lookup_insert_ne. }
      assert (Hrp : refuses h data events p <-> e <> None).
      { unfold refuses, message_for. split.
        - intros (sb0 & Hsb0 & Hr). assert (sb0 = sb) as -> by congruence.
          by rewrite Hpub in Hr.
        - intros He. exists sb. split; [done|]. by rewrite Hpub. }
      destruct (decide (p' = p)) as [->|Hne].
      * split.
        -- intros [Hx|[Hd _]].
           ++ unfold ev1 in Hx. destruct e.
              ** rewrite lookup_insert_eq in Hx. injection Hx as <-.
                 right. split; [by left|]. by apply Hrp.
              ** by left.
           ++ destruct Hpd. apply list_elem_of_fmap. by exists (p, si').
        -- intros [Hx|[[[= ->]|Hd] Hr]].
           ++ congruence.
           ++ left. apply Hrp in Hr. unfold ev1. destruct e; [|done].
              by rewrite lookup_insert_eq.
           ++ destruct Hpd. apply list_elem_of_fmap. by exists (p, si').
      * rewrite (Href p' Hne).
        assert (ev1 !! p' = ev !! p') as ->.
        { unfold ev1. destruct e; [|done]. by rewrite lookup_insert_ne. }
        naive_solver.
  - exists h, ev. repeat split; try done; set_solver.
  - destruct (IH h ev) as (h' & ev' & -> & Hout & Hin & Hevict).
    { apply Hrest. done. }
    { done. }
    { intros p' Hp'. specialize (Hev _ Hp'). set_solver. }
    exists h', ev'. done.
Qed.

(** ** The invariant holds in every reachable state *)

Lemma apply_options_fields options s :
  let s' := foldl apply_option s options in
  queue s' = queue s /\ queue_closed s' = queue_closed s /\ done s' = done s
  /\ index s' = index s /\ observe s' = observe s /\ heap s' = heap s
  /\ next s' = next s /\ sender s' = sender s.
Proof.
  revert s. induction options as [|[cap] options IH]; intros s; simpl; [done|].
  apply (IH (with_queueCap cap s)).
Qed.

Lemma NewServer_inv options : inv (NewServer options).
Proof.
  unfold NewServer.
  match goal with |- context [foldl apply_option ?s0 options] =>
    destruct (apply_options_fields options s0) as (_ & _ & _ & _ & _ & Hh & Hn & Hs)
  end.
  split; simpl.
  - intros idx [= <-]. apply newSubIndex_coherent.
  - intros idx [= <-] p1 p2 si1 si2. simpl. by rewrite lookup_empty.
  - intros idx p si [= <-]. simpl. by rewrite lookup_empty.
  - intros p. rewrite Hh. simpl. rewrite lookup_empty. by intros [? ?].
  - intros evict err p si. rewrite Hs. done.
Qed.

Lemma SubscribeWithArgs_inv args uuid s r s' :
  inv s -> SubscribeWithArgs args uuid s = (r, s') -> inv s'.
Proof.
  intros Hinv. unfold SubscribeWithArgs.
  destruct (sa_Query args) as [q|]; [|by intros [= <- <-]].
  destruct (index s) as [idx|] eqn:Hidx; [|by intros [= <- <-]].
  destruct (contains idx (sa_ClientID args) (q_String q)) eqn:Hc;
    [by intros [= <- <-]|].
  destruct (newSubscription _ _ _) as [sb|err] eqn:Hnew; [|by intros [= <- <-]].
  intros [= <- <-].
  assert (Hfresh : idx_all idx !! next s = None).
  { destruct (idx_all idx !! next s) as [si|] eqn:E; [|done].
    destruct (inv_live s Hinv idx _ _ Hidx E) as (_ & Hlt & _). lia. }
  assert (Hsb : sub_stopErr sb = None).
  { unfold newSubscription in Hnew. case_decide; [done|]. by injection Hnew as <-. }
  split; simpl.
  - intros idx' [= <-]. apply add_coherent; [|done]. by apply (inv_coherent s).
  - intros idx' [= <-]. apply add_unique; try done.
    + by apply (inv_coherent s).
    + by apply (inv_unique s).
  - intros idx' p si [= <-]. simpl.
    destruct (decide (next s = p)) as [<-|Hne].
    + rewrite !lookup_insert_eq. intros [= <-]. simpl.
      split; [done|]. split; [lia|]. eauto.
    + rewrite !lookup_insert_ne by done. intros Hp.
      destruct (inv_live s Hinv idx _ _ Hidx Hp) as (? & ? & ?).
      split; [done|]. split; [lia|done].
  - intros p. destruct (decide (next s = p)) as [<-|Hne]; [lia|].
    rewrite lookup_insert_ne by done. intros Hp.
    pose proof (inv_heap s Hinv p Hp). lia.
  - intros evict err p si Hs Hp.
    destruct (inv_evict s Hinv _ _ _ _ Hs Hp). split; [done|lia].
Qed.

(** Removing a set whose entries point to their own address keeps the
    invariant: what stays in the index is still live. *)
Lemma removeSubs_inv evict reason s s' :
  inv s ->
  (forall p si, evict !! p = Some si -> si_sub si = p) ->
  removeSubs evict reason s = Done s' ->
  inv (with_sender (match sender s with
                    | Evicting _ _ => Receiving
                    | x => x
                    end) s').
Proof.
  intros Hinv Hown. unfold removeSubs. simpl.
  destruct (index s) as [idx|] eqn:Hidx; [|done]. intros [= <-].
  split; simpl.
  - intros idx' [= <-]. apply removeAll_coherent. by apply (inv_coherent s).
  - intros idx' [= <-]. apply removeAll_unique. by apply (inv_unique s).
  - intros idx' p si [= <-]. simpl. rewrite lookup_difference_Some.
    intros [Hp Hne].
    destruct (inv_live s Hinv idx _ _ Hidx Hp) as (? & ? & sb & Hsb & Hlive).
    split; [done|]. split; [done|]. exists sb. split; [|done].
    rewrite lookup_stop_all_own by done.
    rewrite decide_False; [done|]. rewrite Hne. by intros [? ?].
  - intros p Hp. apply (inv_heap s Hinv).
    rewrite lookup_stop_all_own in Hp by done.
    case_decide; [|done]. by apply fmap_is_Some in Hp.
  - intros ev err p si Hs. by destruct (sender s).
Qed.

Lemma removeSubs_fields evict reason s s' :
  removeSubs evict reason s = Done s' ->
  sender s' = sender s /\ next s' = next s /\ queue s' = queue s
  /\ queue_closed s' = queue_closed s /\ done s' = done s
  /\ heap s' = stop_all evict reason (heap s)
  /\ exists idx, index s = Some idx /\ index s' = Some (removeAll evict idx).
Proof.
  unfold removeSubs. simpl. destruct (index s) as [idx|] eqn:E; [|done].
  intros [= <-]. simpl. repeat split; eauto.
Qed.

Lemma removeSubs_inv_idle evict reason s s' :
  inv s ->
  (forall p si, evict !! p = Some si -> si_sub si = p) ->
  removeSubs evict reason s = Done s' ->
  inv s'.
Proof.
  intros Hinv Hown Hrm.
  pose proof (removeSubs_inv _ _ _ _ Hinv Hown Hrm) as [H1 H2 H3 H4 H5].
  destruct (removeSubs_fields _ _ _ _ Hrm) as (Hs & Hn & _).
  split; try done.
  intros ev err p si Hsnd Hp. rewrite Hs in Hsnd. rewrite Hn.
  by apply (inv_evict s Hinv ev err).
Qed.

Lemma iteration_order_elem idx order p si :
  iteration_order idx order -> (p, si) ∈ order <-> idx_all idx !! p = Some si.
Proof. intros Hord. unfold iteration_order in Hord. by rewrite Hord, elem_of_map_to_list. Qed.

Lemma iteration_order_NoDup idx order :
  iteration_order idx order -> NoDup order.*1.
Proof.
  intros Hord. unfold iteration_order in Hord. rewrite Hord.
  apply NoDup_fst_map_to_list.
Qed.

(** [send] under the shared lock when the observer vetoes: nothing but the
    history of the observer changes, whatever the index holds. *)
Lemma send_locked_veto data events order s e :
  observer_verdict s data events = Some e ->
  send_locked data events order s
  = Done (Some (ErrWrap "observer failed on message: %w" e), ∅,
          with_observed (observer_seen s data events) s).
Proof.
  unfold observer_verdict, observer_seen, send_locked.
  destruct (observe s) as [ob|]; [|done].
  destruct (call_observe ob (observed s) _) as [err hist]. simpl. by intros ->.
Qed.

(** [send] under the shared lock when no observer vetoes. *)
Lemma send_locked_pass data events order s idx :
  inv s -> index s = Some idx -> iteration_order idx order ->
  observer_verdict s data events = None ->
  exists h' evict,
    send_locked data events order s
    = Done (ErrWrap "match failed against query: %w" <$> match_error events order,
            evict,
            with_heap h' (with_observed (observer_seen s data events) s))
    /\ (forall l, l ∉ (delivered events order).*1 -> h' !! l = heap s !! l)
    /\ (forall p si sb, (p, si) ∈ delivered events order -> heap s !! p = Some sb ->
          h' !! p = Some (sub_publish sb (message_for sb data events)).1)
    /\ (forall p si, evict !! p = Some si <->
          (p, si) ∈ delivered events order /\ refuses (heap s) data events p).
Proof.
  intros Hinv Hidx Hord Hver.
  destruct (fanout_spec data events order (heap s) ∅) as (h' & ev' & Hf & H1 & H2 & H3).
  { intros p si Hin. apply (iteration_order_elem idx) in Hin; [|done].
    destruct (inv_live s Hinv idx p si Hidx Hin) as (? & _ & sb & ? & _). eauto. }
  { by apply (iteration_order_NoDup idx). }
  { intros p. rewrite lookup_empty. by intros [? ?]. }
  exists h', ev'. split; [|split; [done|split; [done|]]].
  - unfold send_locked, observer_verdict, observer_seen in *.
    destruct (observe s) as [ob|].
    + destruct (call_observe ob (observed s) _) as [err hist]. simpl in *. subst err.
      simpl. rewrite Hidx, Hf. done.
    + rewrite Hidx, Hf. by destruct s.
  - intros p si. rewrite H3, lookup_empty. naive_solver.
Qed.

Lemma fanout_keeps_stopErr data events order s idx (h' : gmap loc Subscription) :
  inv s -> index s = Some idx -> iteration_order idx order ->
  (forall l, l ∉ (delivered events order).*1 -> h' !! l = heap s !! l) ->
  (forall p si sb, (p, si) ∈ delivered events order -> heap s !! p = Some sb ->
     h' !! p = Some (sub_publish sb (message_for sb data events)).1) ->
  forall l, sub_stopErr <$> h' !! l = sub_stopErr <$> heap s !! l.
Proof.
  intros Hinv Hidx Hord H1 H2 l.
  destruct (decide (l ∈ (delivered events order).*1)) as [Hin|Hout].
  - apply list_elem_of_fmap in Hin as ([p si] & -> & Hin). simpl.
    assert (Hall : idx_all idx !! p = Some si).
    { apply (iteration_order_elem idx order); [done|]. by apply delivered_subset in Hin. }
    destruct (inv_live s Hinv idx p si Hidx Hall) as (_ & _ & sb & Hsb & _).
    rewrite (H2 p si sb Hin Hsb), Hsb. simpl. by rewrite sub_publish_stopErr.
  - by rewrite H1.
Qed.

Lemma send_locked_inv data events order s idx err evict s1 :
  inv s -> index s = Some idx -> iteration_order idx order ->
  send_locked data events order s = Done (err, evict, s1) ->
  inv (with_sender (Evicting evict err) s1).
Proof.
  intros Hinv Hidx Hord Hsend.
  destruct (observer_verdict s data events) as [e|] eqn:Hver.
  - rewrite (send_locked_veto _ _ _ _ e Hver) in Hsend. injection Hsend as <- <- <-.
    split; simpl; try apply Hinv.
    intros ev err p si [= <- <-]. by rewrite lookup_empty.
  - destruct (send_locked_pass data events order s idx Hinv Hidx Hord Hver)
      as (h' & ev' & Hs & H1 & H2 & H3).
    rewrite Hs in Hsend. injection Hsend as <- <- <-.
    pose proof (fanout_keeps_stopErr data events order s idx h' Hinv Hidx Hord H1 H2)
      as Hkeep.
    split; simpl; try apply Hinv.
    + intros idx' p si Hidx' Hp.
      destruct (inv_live s Hinv idx' p si Hidx' Hp) as (? & ? & sb & Hsb & Hlive).
      split; [done|]. split; [done|].
      specialize (Hkeep p). rewrite Hsb in Hkeep. simpl in Hkeep.
      destruct (h' !! p) as [sb'|]; [|done]. exists sb'. split; [done|].
      simpl in Hkeep. congruence.
    + intros p Hp. apply (inv_heap s Hinv). specialize (Hkeep p).
      apply (fmap_is_Some sub_stopErr). rewrite <- Hkeep.
      by apply fmap_is_Some.
    + intros ev err p si [= <- <-] Hp. apply H3 in Hp as [Hd _].
      apply delivered_subset in Hd. apply (iteration_order_elem idx) in Hd; [|done].
      destruct (inv_live s Hinv idx p si Hidx Hd) as (? & ? & _). done.
Qed.

(** The invariant looks at the index, the heap, the allocation counter and
    the pending eviction only. *)
Lemma inv_fields s s' :
  index s' = index s -> heap s' = heap s -> next s' = next s ->
  (forall ev err, sender s' = Evicting ev err -> sender s = Evicting ev err) ->
  inv s -> inv s'.
Proof.
  intros Hi Hh Hn Hs [H1 H2 H3 H4 H5]. split.
  - intros idx. rewrite Hi. apply H1.
  - intros idx. rewrite Hi. apply H2.
  - intros idx p si. rewrite Hi, Hh, Hn. apply H3.
  - intros p. rewrite Hh, Hn. apply H4.
  - intros ev err p si Hsnd. rewrite Hn. apply (H5 ev err). by apply Hs.
Qed.

Lemma log_send_error_inv err s : inv s -> inv (log_send_error err s).
Proof. destruct err; [|done]. by apply inv_fields. Qed.

Lemma findClientID_own s idx c p si :
  inv s -> index s = Some idx -> findClientID idx c !! p = Some si -> si_sub si = p.
Proof.
  intros Hinv Hidx Hp. apply (coh_client idx (inv_coherent s Hinv idx Hidx)) in Hp as [Hp _].
  by destruct (inv_live s Hinv idx p si Hidx Hp).
Qed.

Lemma findQuery_own s idx q p si :
  inv s -> index s = Some idx -> findQuery idx q !! p = Some si -> si_sub si = p.
Proof.
  intros Hinv Hidx Hp. apply (coh_query idx (inv_coherent s Hinv idx Hidx)) in Hp as [Hp _].
  by destruct (inv_live s Hinv idx p si Hidx Hp).
Qed.

Lemma Unsubscribe_inv args s r s' :
  inv s -> Unsubscribe args s = Done (r, s') -> inv s'.
Proof.
  intros Hinv. unfold Unsubscribe.
  destruct (Validate args); [by intros [= <- <-]|].
  destruct (index s) as [idx|] eqn:Hidx; [|by intros [= <- <-]].
  case_decide as Hsub.
  - destruct (ua_Query args) as [q|].
    + case_decide; [by intros [= <- <-]|].
      destruct (removeSubs _ _ _) as [s2|] eqn:Hrm; [|done]. intros [= <- <-].
      eapply removeSubs_inv_idle; [done| |done].
      intros p si [Hp _]%lookup_withQuery. by eapply findClientID_own.
    + case_decide; [by intros [= <- <-]|].
      destruct (removeSubs _ _ _) as [s2|] eqn:Hrm; [|done]. intros [= <- <-].
      eapply removeSubs_inv_idle; [done| |done].
      intros p si Hp. by eapply findClientID_own.
  - destruct (ua_Query args) as [q|]; [|done].
    case_decide; [by intros [= <- <-]|].
    destruct (removeSubs _ _ _) as [s2|] eqn:Hrm; [|done]. intros [= <- <-].
    eapply removeSubs_inv_idle; [done| |done].
    intros p si Hp. by eapply findQuery_own.
Qed.

Lemma UnsubscribeAll_inv clientID s r s' :
  inv s -> UnsubscribeAll clientID s = Done (r, s') -> inv s'.
Proof.
  intros Hinv. unfold UnsubscribeAll.
  destruct (index s) as [idx|] eqn:Hidx; [|done].
  case_decide; [by intros [= <- <-]|].
  destruct (removeSubs _ _ _) as [s2|] eqn:Hrm; [|done]. intros [= <- <-].
  eapply removeSubs_inv_idle; [done| |done].
  intros p si Hp. by eapply findClientID_own.
Qed.

Lemma step_inv s s' : step s s' -> inv s -> inv s'.
Proof.
  intros Hstep Hinv. destruct Hstep.
  - by eapply SubscribeWithArgs_inv.
  - by eapply Unsubscribe_inv.
  - by eapply UnsubscribeAll_inv.
  - unfold Observe in *. destruct cb; destruct (observe s); simplify_eq; try done;
      by apply (inv_fields s).
  - unfold publish in *. destruct (can_proceed c ctx s); [|done].
    destruct c; simplify_eq; try done.
    destruct (queue_closed s); simplify_eq. by apply (inv_fields s).
  - by apply (inv_fields s).
  - unfold OnStop in *. destruct (done s); simplify_eq; by apply (inv_fields s).
  - unfold monitor_close in *. destruct (queue_closed s); simplify_eq.
    by apply (inv_fields s).
  - eapply (send_locked_inv _ _ _ (with_queue rest s) idx); try done.
    by apply (inv_fields s).
  - apply log_send_error_inv. unfold send_evict in *. case_decide.
    + pose proof (removeSubs_inv evict ErrTerminated s s' Hinv) as Hrm.
      rewrite H in Hrm. apply Hrm; [|done].
      intros p si Hp. by destruct (inv_evict s Hinv _ _ _ _ H Hp).
    + simplify_eq. by apply (inv_fields s').
  - unfold sender_exit in *. destruct (index s) as [idx|] eqn:Hidx; simplify_eq.
    split; simpl; try done.
    intros p Hp. apply (inv_heap s Hinv).
    rewrite lookup_stop_all in Hp. case_decide; [|done]. by apply fmap_is_Some in Hp.
Qed.

Lemma reachable_inv s : reachable s -> inv s.
Proof.
  intros [options Hrtc].
  revert s Hrtc. apply rtc_ind_r; [apply NewServer_inv|].
  intros s2 s3 _ Hstep IH. by apply (step_inv s2).
Qed.

(** ** What [send] does to each subscription *)

Lemma delivered_key idx order events p si :
  iteration_order idx order -> idx_all idx !! p = Some si ->
  p ∈ (delivered events order).*1 <-> (p, si) ∈ delivered events order.
Proof.
  intros Hord Hp. split.
  - intros ([p' si'] & -> & Hd)%list_elem_of_fmap. simpl in *.
    pose proof Hd as Hd'. apply delivered_subset in Hd'.
    apply (iteration_order_elem idx) in Hd'; [|done].
    assert (si' = si) as -> by congruence. done.
  - intros Hd. apply list_elem_of_fmap. by exists (p, si).
Qed.

(** The deferred eviction, on the set that the fan-out has collected. *)
Lemma send_evict_spec evict s idx :
  index s = Some idx ->
  (forall p si, evict !! p = Some si -> si_sub si = p) ->
  exists s' idx',
    send_evict evict s = Done s'
    /\ index s' = Some idx'
    /\ (forall p, idx_all idx' !! p
                  = if decide (is_Some (evict !! p)) then None else idx_all idx !! p)
    /\ (forall p, heap s' !! p
                  = if decide (is_Some (evict !! p))
                    then sub_stop ErrTerminated <$> heap s !! p else heap s !! p)
    /\ sender s' = sender s /\ queue s' = queue s /\ logger s' = logger s
    /\ observed s' = observed s /\ next s' = next s.
Proof.
  intros Hidx Hown. unfold send_evict. case_decide as Hsz.
  - unfold removeSubs. simpl. rewrite Hidx.
    eexists _, _. split; [done|]. split; [done|]. simpl. split; [|split; [|done]].
    + intros p. rewrite lookup_difference. case_decide as Hp.
      * destruct Hp as [x ->]. done.
      * destruct (evict !! p) eqn:E; [destruct Hp; eauto|done].
    + intros p. by apply lookup_stop_all_own.
  - exists s, idx. split; [done|]. split; [done|].
    assert (evict = ∅) as ->.
    { apply map_size_empty_iff. destruct (size evict); [done|]. destruct Hsz. done. }
    split; [|split; [|done]]; intros p; rewrite lookup_empty;
      rewrite decide_False; try done; by intros [? ?].
Qed.

(** [send] when no observer vetoes, subscription by subscription: an entry
    that is not delivered is left alone; a delivered one whose subscription
    accepts the message has it enqueued; a delivered one whose subscription
    refuses is stopped with ErrTerminated and leaves the index.  The value
    returned is the first evaluation error, and nothing else. *)
Lemma send_pass data events order s idx :
  inv s -> index s = Some idx -> iteration_order idx order ->
  observer_verdict s data events = None ->
  exists s' idx',
    send data events order s
    = Done (ErrWrap "match failed against query: %w" <$> match_error events order, s')
    /\ index s' = Some idx'
    /\ (forall p si, idx_all idx' !! p = Some si -> idx_all idx !! p = Some si)
    /\ (forall p si sb, idx_all idx !! p = Some si -> heap s !! p = Some sb ->
          let r := sub_publish sb (message_for sb data events) in
          ((p, si) ∉ delivered events order ->
             idx_all idx' !! p = Some si /\ heap s' !! p = Some sb)
          /\ ((p, si) ∈ delivered events order -> r.2 = None ->
                idx_all idx' !! p = Some si /\ heap s' !! p = Some r.1)
          /\ ((p, si) ∈ delivered events order -> r.2 <> None ->
                idx_all idx' !! p = None
                /\ heap s' !! p = Some (sub_stop ErrTerminated sb)))
    /\ sender s' = sender s /\ queue s' = queue s /\ logger s' = logger s
    /\ next s' = next s.
Proof.
  intros Hinv Hidx Hord Hver.
  destruct (send_locked_pass data events order s idx Hinv Hidx Hord Hver)
    as (h' & evict & Hs & H1 & H2 & H3).
  set (s1 := with_heap h' (with_observed (observer_seen s data events) s)) in *.
  destruct (send_evict_spec evict s1 idx) as (s' & idx' & He & Hidx' & Hall & Hheap & Hrest);
    [done| |].
  { intros p si [Hd _]%H3. apply delivered_subset in Hd.
    apply (iteration_order_elem idx) in Hd; [|done].
    by destruct (inv_live s Hinv idx p si Hidx Hd). }
  exists s', idx'. unfold send. rewrite Hs, He. split; [done|]. split; [done|].
  split; [|split; [|by destruct Hrest as (-> & -> & -> & _ & ->)]].
  - intros p si. rewrite Hall. by case_decide.
  - intros p si sb Hp Hsb.
    set (r := sub_publish sb (message_for sb data events)).
    assert (Hev : is_Some (evict !! p) <-> (p, si) ∈ delivered events order /\ r.2 <> None).
    { split.
      - intros [si' Hx]. pose proof Hx as Hx'. apply H3 in Hx' as [Hd (sb0 & Hsb0 & Hr)].
        assert (si' = si) as ->.
        { apply delivered_subset in Hd. apply (iteration_order_elem idx) in Hd; [|done].
          congruence. }
        assert (sb0 = sb) as -> by congruence. by split.
      - intros [Hd Hr]. exists si. apply H3. split; [done|]. by exists sb. }
    rewrite Hall, Hheap. simpl.
    destruct (decide (is_Some (evict !! p))) as [Hin|Hout].
    + apply Hev in Hin as [Hd Hr]. split; [done|]. split; [done|].
      intros _ _. split; [done|]. rewrite (H2 p si sb Hd Hsb). simpl.
      by rewrite (sub_publish_refused sb _ Hr).
    + assert (Hno : ~ ((p, si) ∈ delivered events order /\ r.2 <> None)).
      { by rewrite <- Hev. }
      split; [|split].
      * intros Hnd. split; [done|]. rewrite H1; [done|].
        by rewrite (delivered_key idx order events p si).
      * intros Hd Hr. split; [done|]. by apply (H2 p si).
      * intros Hd Hr. destruct Hno. done.
Qed.

(** ** A turn of the sender loop in the transition system *)

Lemma send_locked_fields data events order s err evict s1 :
  send_locked data events order s = Done (err, evict, s1) ->
  index s1 = index s /\ sender s1 = sender s /\ done s1 = done s
  /\ queue_closed s1 = queue_closed s /\ queue s1 = queue s.
Proof.
  unfold send_locked. destruct (observe s) as [ob|].
  - destruct (call_observe ob (observed s) _) as [e hist]. destruct e.
    + by intros [= <- <- <-].
    + simpl. destruct (index s) eqn:Hi; [|done].
      destruct (fanout _ _ _ _ _) as [[[e h] ev]|]; [|done]. by intros [= <- <- <-].
  - simpl. destruct (index s) eqn:Hi; [|done].
    destruct (fanout _ _ _ _ _) as [[[e h] ev]|]; [|done]. by intros [= <- <- <-].
Qed.

Lemma send_evict_with_sender x evict s s' :
  send_evict evict s = Done s' ->
  send_evict evict (with_sender x s) = Done (with_sender x s').
Proof.
  unfold send_evict, removeSubs. case_decide; [|by intros [= <-]].
  simpl. destruct (index s); [|done]. by intros [= <-].
Qed.

Lemma send_evict_sender evict s s' :
  send_evict evict s = Done s' -> sender s' = sender s.
Proof.
  unfold send_evict. case_decide; [|by intros [= <-]].
  intros Hrm. by destruct (removeSubs_fields _ _ _ _ Hrm) as (-> & _).
Qed.

(** A turn of the sender loop is two steps of the server: the fan-out under
    the shared lock, then the deferred eviction and the log. *)
Lemma sender_turn_steps s it rest idx order s2 :
  sender s = Receiving -> queue s = it :: rest -> index s = Some idx ->
  iteration_order idx order ->
  sender_turn it order (with_queue rest s) = Done s2 ->
  exists s1, step s s1 /\ step s1 s2.
Proof.
  intros Hsnd Hq Hidx Hord. unfold sender_turn, send.
  destruct (send_locked _ _ _ _) as [[[err evict] s1]|] eqn:Hlocked; [|done].
  destruct (send_evict evict s1) as [s1'|] eqn:Hevict; [|done]. intros [= <-].
  exists (with_sender (Evicting evict err) s1). split.
  - by eapply step_send_locked.
  - assert (Hs1' : sender s1' = Receiving).
    { rewrite (send_evict_sender _ _ _ Hevict).
      by destruct (send_locked_fields _ _ _ _ _ _ _ Hlocked) as (_ & -> & _). }
    assert (Heq : s1' = with_sender Receiving (with_sender (Evicting evict err) s1')).
    { destruct s1'. simpl in Hs1'. by subst. }
    rewrite Heq at 1.
    apply (step_send_evict evict err); [done|].
    by apply send_evict_with_sender.
Qed.

(** * The claims *)

(** ** Samples are reachable *)

Lemma step_reachable s s' : reachable s -> step s s' -> reachable s'.
Proof. intros [options H] Hs. exists options. by eapply rtc_r. Qed.

Lemma server_two_reachable : reachable server_two.
Proof.
  unfold server_two, subscribe_as.
  eapply step_reachable; [eapply step_reachable; [eapply step_reachable|]|].
  - exists []. apply rtc_refl.
  - by apply step_start.
  - eapply step_subscribe. apply surjective_pairing.
  - eapply step_subscribe. apply surjective_pairing.
Qed.

Lemma server_vetoed_reachable : reachable server_vetoed.
Proof.
  eapply step_reachable; [apply server_two_reachable|].
  eapply step_observe. apply surjective_pairing.
Qed.

Lemma server_closing_reachable : reachable server_closing.
Proof.
  eapply step_reachable; [eapply step_reachable; [apply server_two_reachable|]|].
  - by apply (step_stop server_two (with_done ChClosed server_two)).
  - by apply step_monitor.
Qed.

Lemma server_stopped_shutdown : shutdown server_two = Done server_stopped.
Proof. by vm_compute. Qed.

Lemma server_closing_exit : sender_exit server_closing = Done server_stopped.
Proof. vm_compute. reflexivity. Qed.

Lemma server_stopped_reachable : reachable server_stopped.
Proof.
  eapply step_reachable; [apply server_closing_reachable|].
  apply step_exit; [vm_compute; reflexivity ..|apply server_closing_exit].
Qed.

(** ** The model at work *)

(** A message that both subscribers of [server_two] match is enqueued on
    both queues, and [send] returns nil. *)
Example send_delivers_to_all :
  let order := [entry 0 "alice" query_any "uuid-1"; entry 1 "bob" query_any "uuid-2"] in
  exists s',
    send "block-1" [] order server_two = Done (None, s')
    /\ sub_queue <$> heap s' !! 0%nat = Some [mkMessage "uuid-1" "block-1" []]
    /\ sub_queue <$> heap s' !! 1%nat = Some [mkMessage "uuid-2" "block-1" []].
Proof. intros order. eexists. by vm_compute. Qed.

(** Scenario 4 of the spec: with a limit of 1 and nobody reading, the second
    message is refused; [send] still returns nil, both subscriptions are
    terminated and the index is left without entries. *)
Example slow_subscribers_evicted :
  let order := [entry 0 "alice" query_any "uuid-1"; entry 1 "bob" query_any "uuid-2"] in
  exists s1 s2 idx,
    send "block-1" [] order server_two = Done (None, s1)
    /\ send "block-2" [] order s1 = Done (None, s2)
    /\ sub_stopErr <$> heap s2 !! 0%nat = Some (Some ErrTerminated)
    /\ sub_stopErr <$> heap s2 !! 1%nat = Some (Some ErrTerminated)
    /\ index s2 = Some idx /\ map_to_list (idx_all idx) = []
    /\ NumClients s2 = Done 0%nat.
Proof.
  intros order. subst order. eexists _, _, _.
  split; [vm_compute; reflexivity|]. split; [vm_compute; reflexivity|].
  split; [vm_compute; reflexivity|]. split; [vm_compute; reflexivity|].
  split; [vm_compute; reflexivity|]. split; vm_compute; reflexivity.
Qed.

(** A second subscription for the same client and query is refused. *)
Example duplicate_subscription_refused :
  (SubscribeWithArgs (mkSubscribeArgs "bob" (Some query_any) 5 0) "uuid-3" server_two).1
  = inr ErrAlreadySubscribed.
Proof. by vm_compute. Qed.

(** Before [run] the unbuffered queue has no receiver: the send of publish
    cannot proceed, and a publish with a live context blocks. *)
Example publish_blocks_before_start :
  publish CaseSend None "block" [] (NewServer []) = None
  /\ publish CaseDone None "block" [] (NewServer []) = None
  /\ publish CaseCtx None "block" [] (NewServer []) = None.
Proof. by vm_compute. Qed.

(** ** C1: the observer is a veto point *)

(** C1.  When an observer is registered and returns an error on a message,
    [send] returns before the fan-out: it hands the message to no
    subscription, so that neither the heap of subscriptions nor the index
    changes, and it evicts nobody.  The turn of the sender loop completes: the
    error is logged and the sender is where it was.  In the running server
    the two steps of that turn lead to a state where the sender is receiving
    again, with the rest of the queue before it. *)
Theorem observer_error_vetoes_delivery s ob data events order e :
  observe s = Some ob ->
  (call_observe ob (observed s) (mkMessage "" data events)).1 = Some e ->
  let err := ErrWrap "observer failed on message: %w" e in
  (exists s', send data events order s = Done (Some err, s')
              /\ heap s' = heap s /\ index s' = index s)
  /\ (exists s'', sender_turn (mkItem data events) order s = Done s''
                  /\ heap s'' = heap s /\ index s'' = index s
                  /\ sender s'' = sender s /\ queue s'' = queue s
                  /\ queue_closed s'' = queue_closed s
                  /\ logger s'' = logger s ++ [("Error sending event", err)])
  /\ (forall rest idx,
        sender s = Receiving -> queue s = mkItem data events :: rest ->
        index s = Some idx -> iteration_order idx order ->
        exists s1 s2,
          step s s1 /\ step s1 s2
          /\ sender s2 = Receiving /\ queue s2 = rest
          /\ heap s2 = heap s /\ index s2 = index s).
Proof.
  intros Hob Hcall err.
  assert (Hver : forall q, observer_verdict (with_queue q s) data events = Some e).
  { intros q. unfold observer_verdict. simpl. by rewrite Hob. }
  assert (Hsend : forall s0, observer_verdict s0 data events = Some e ->
            send data events order s0
            = Done (Some err, with_observed (observer_seen s0 data events) s0)).
  { intros s0 Hv. unfold send. rewrite (send_locked_veto _ _ _ _ e Hv).
    unfold send_evict. by rewrite decide_False by (rewrite map_size_empty; lia). }
  assert (Hsame : observer_verdict s data events = Some e).
  { unfold observer_verdict. by rewrite Hob. }
  split; [|split].
  - eexists. split; [exact (Hsend s Hsame)|]. done.
  - unfold sender_turn. simpl. rewrite (Hsend s Hsame). eexists. split; [done|]. done.
  - intros rest idx Hsnd Hq Hidx Hord.
    destruct (sender_turn_steps s (mkItem data events) rest idx order
                (log_send_error (Some err)
                   (with_observed (observer_seen (with_queue rest s) data events)
                      (with_queue rest s))))
      as (s1 & Hstep1 & Hstep2); try done.
    { unfold sender_turn. simpl. by rewrite (Hsend _ (Hver rest)). }
    eexists s1, _. split; [done|]. split; [exact Hstep2|]. done.
Qed.

Lemma observer_error_vetoes_delivery_witness :
  let order := [entry 0 "alice" query_any "uuid-1"; entry 1 "bob" query_any "uuid-2"] in
  exists s', send "block" [] order server_vetoed
             = Done (Some (ErrWrap "observer failed on message: %w"
                                   (ErrNew "index unavailable")), s')
             /\ heap s' = heap server_vetoed /\ index s' = index server_vetoed.
Proof.
  intros order.
  refine (proj1 (observer_error_vetoes_delivery server_vetoed
                   (mkObserver [] observer_failing) "block" [] order
                   (ErrNew "index unavailable") _ _)); reflexivity.
Defined.

(** ** C2: an evaluation error ends the fan-out *)

Lemma match_error_app events pre l :
  match_error events pre = None ->
  match_error events (pre ++ l) = match_error events l
  /\ delivered events (pre ++ l) = delivered events pre ++ delivered events l.
Proof.
  induction pre as [|[p si] pre IH]; simpl; [done|].
  destruct (q_Matches (si_query si) events) as [[|] [err|]]; try done;
    intros He; destruct (IH He) as [-> ->]; done.
Qed.

Lemma server_broken_reachable : reachable server_broken.
Proof.
  unfold server_broken, subscribe_as.
  eapply step_reachable; [eapply step_reachable; [eapply step_reachable|]|].
  - exists []. apply rtc_refl.
  - by apply step_start.
  - eapply step_subscribe. apply surjective_pairing.
  - eapply step_subscribe. apply surjective_pairing.
Qed.

Lemma server_broken_order :
  forall idx, index server_broken = Some idx ->
    iteration_order idx [entry 0 "alice" query_broken "uuid-1";
                         entry 1 "bob" query_any "uuid-2"].
Proof.
  intros idx [= <-]. unfold iteration_order.
  change (map_to_list _) with [entry 1 "bob" query_any "uuid-2";
                               entry 0 "alice" query_broken "uuid-1"].
  apply perm_swap.
Qed.

(** C2, as stated, fails.  On [server_broken] alice's query cannot be
    evaluated and bob's query matches; were delivery to go on after the
    error, bob would receive the message whatever the order of the iteration.
    He does not when alice is visited first. *)
Lemma match_error_continues_counterexample :
  ~ (forall idx order, index server_broken = Some idx -> iteration_order idx order ->
       forall p si sb,
         idx_all idx !! p = Some si -> heap server_broken !! p = Some sb ->
         q_Matches (si_query si) [] = (true, None) ->
         exists err s' sb',
           send "block" [] order server_broken = Done (err, s')
           /\ heap s' !! p = Some sb'
           /\ sub_queue sb' = sub_queue sb ++ [message_for sb "block" []]).
Proof.
  intros H.
  destruct (index server_broken) as [idx|] eqn:Hidx; [|done].
  specialize (H idx _ eq_refl (server_broken_order idx Hidx)
                1%nat (entry 1 "bob" query_any "uuid-2").2).
  injection Hidx as <-.
  destruct (heap server_broken !! 1%nat) as [sb|] eqn:Hsb; [|done].
  destruct (H sb eq_refl eq_refl eq_refl) as (err & s' & sb' & Hsend & Hsb' & Hq).
  vm_compute in Hsend. injection Hsend as <- <-.
  vm_compute in Hsb, Hsb'. injection Hsb as <-. injection Hsb' as <-.
  vm_compute in Hq. done.
Qed.

(** C2, amended.  When the evaluation of the query of an entry fails during
    the fan-out, [send] stops there and returns the error wrapped, which the
    sender loop logs.  The entry is not evicted and its subscription is not
    touched; the entries that the loop had not reached yet are not served
    either; the ones visited before have been served, the refusing ones among
    them being evicted. *)
Theorem match_error_stops_fanout s idx order pre p si post data events b err :
  inv s -> index s = Some idx -> iteration_order idx order ->
  observer_verdict s data events = None ->
  order = pre ++ (p, si) :: post ->
  match_error events pre = None ->
  q_Matches (si_query si) events = (b, Some err) ->
  let failure := ErrWrap "match failed against query: %w" err in
  exists s' idx',
    send data events order s = Done (Some failure, s')
    /\ sender_turn (mkItem data events) order s
       = Done (with_logger (logger s ++ [("Error sending event", failure)]) s')
    /\ index s' = Some idx'
    /\ (idx_all idx' !! p = Some si /\ heap s' !! p = heap s !! p)
    /\ (forall p' si', (p', si') ∈ post ->
          idx_all idx' !! p' = Some si' /\ heap s' !! p' = heap s !! p')
    /\ (forall p' si' sb, (p', si') ∈ pre -> heap s !! p' = Some sb ->
          (q_Matches (si_query si') events).1 = true ->
          let r := sub_publish sb (message_for sb data events) in
          (r.2 = None -> idx_all idx' !! p' = Some si' /\ heap s' !! p' = Some r.1)
          /\ (r.2 <> None -> idx_all idx' !! p' = None
                             /\ heap s' !! p' = Some (sub_stop ErrTerminated sb))).
Proof.
  intros Hinv Hidx Hord Hver -> Hpre Hm failure.
  destruct (send_pass data events _ s idx Hinv Hidx Hord Hver)
    as (s' & idx' & Hsend & Hidx' & _ & Hsub & _ & _ & Hlog & _).
  destruct (match_error_app events pre ((p, si) :: post) Hpre) as [He Hd].
  simpl in He, Hd. rewrite Hm in He, Hd.
  assert (Hd' : delivered events (pre ++ (p, si) :: post) = delivered events pre).
  { rewrite Hd. destruct b; apply app_nil_r. }
  clear Hd.
  rewrite He in Hsend. simpl in Hsend. rewrite Hd' in Hsub.
  pose proof (iteration_order_NoDup idx _ Hord) as Hnd.
  rewrite fmap_app, fmap_cons in Hnd. simpl in Hnd.
  apply NoDup_app in Hnd as (_ & Hdisj & Hnd2). apply NoDup_cons in Hnd2 as [Hp _].
  assert (Hlater : forall p' si', (p', si') ∈ (p, si) :: post ->
            idx_all idx' !! p' = Some si' /\ heap s' !! p' = heap s !! p').
  { intros p' si' Hin.
    assert (Hall : idx_all idx !! p' = Some si').
    { apply (iteration_order_elem idx _ p' si' Hord). set_solver. }
    destruct (inv_live s Hinv idx p' si' Hidx Hall) as (_ & _ & sb & Hsb & _).
    destruct (Hsub p' si' sb Hall Hsb) as [Hno _]. rewrite Hsb. apply Hno.
    intros Hin'. apply delivered_subset in Hin'.
    apply (Hdisj p').
    - apply list_elem_of_fmap. by exists (p', si').
    - change (p' ∈ ((p, si) :: post).*1). apply list_elem_of_fmap. by exists (p', si'). }
  exists s', idx'. split; [done|]. split; [|split; [done|split; [|split]]].
  - unfold sender_turn. simpl. rewrite Hsend. simpl. by rewrite Hlog.
  - apply Hlater. set_solver.
  - intros p' si' Hin. apply Hlater. set_solver.
  - intros p' si' sb Hin Hsb Hmatch.
    assert (Hall : idx_all idx !! p' = Some si').
    { apply (iteration_order_elem idx _ p' si' Hord). set_solver. }
    destruct (Hsub p' si' sb Hall Hsb) as (_ & Hok & Hrefused).
    assert (Hdel : (p', si') ∈ delivered events pre).
    { by apply delivered_no_error. }
    split; [by apply Hok | by apply Hrefused].
Qed.

Lemma match_error_stops_fanout_witness :
  exists s',
    send "block" [] [entry 0 "alice" query_broken "uuid-1";
                     entry 1 "bob" query_any "uuid-2"] server_broken
    = Done (Some (ErrWrap "match failed against query: %w" (ErrNew "malformed")), s').
Proof.
  destruct (index server_broken) as [idx|] eqn:Hidx; [|discriminate Hidx].
  destruct (match_error_stops_fanout server_broken idx _ []
              0%nat (entry 0 "alice" query_broken "uuid-1").2
              [entry 1 "bob" query_any "uuid-2"] "block" [] false (ErrNew "malformed")
              (reachable_inv _ server_broken_reachable) Hidx
              (server_broken_order idx Hidx) eq_refl eq_refl eq_refl eq_refl)
    as (s' & _ & Hsend & _).
  exists s'. exact Hsend.
Defined.

(** ** C3: delivery and eviction of slow subscribers *)

Lemma server_three_reachable : reachable server_three.
Proof.
  unfold server_three, subscribe_as.
  eapply step_reachable;
    [eapply step_reachable; [eapply step_reachable; [eapply step_reachable|]|]|].
  - exists []. apply rtc_refl.
  - by apply step_start.
  - eapply step_subscribe. apply surjective_pairing.
  - eapply step_subscribe. apply surjective_pairing.
  - eapply step_subscribe. apply surjective_pairing.
Qed.

Lemma server_three_order :
  forall idx, index server_three = Some idx ->
    iteration_order idx [entry 0 "alice" query_any "uuid-1";
                         entry 1 "bob" query_broken "uuid-2";
                         entry 2 "carol" query_any "uuid-3"].
Proof.
  intros idx [= <-]. unfold iteration_order.
  change (map_to_list _) with (rev [entry 0 "alice" query_any "uuid-1";
                                    entry 1 "bob" query_broken "uuid-2";
                                    entry 2 "carol" query_any "uuid-3"]).
  apply Permutation_rev.
Qed.

(** C3, as stated, fails on its first part.  On [server_three] carol's query
    matches and her queue has room, so a call of her [publish] would enqueue
    the message (or, had it failed, evict her).  When bob, whose query cannot
    be evaluated, is visited before her, she is neither served nor evicted. *)
Lemma every_match_published_counterexample :
  ~ (forall idx order, index server_three = Some idx -> iteration_order idx order ->
       forall p si sb,
         idx_all idx !! p = Some si -> heap server_three !! p = Some sb ->
         q_Matches (si_query si) [] = (true, None) ->
         let r := sub_publish sb (message_for sb "block" []) in
         exists err s',
           send "block" [] order server_three = Done (err, s')
           /\ ((r.2 = None /\ heap s' !! p = Some r.1)
               \/ (r.2 <> None /\ heap s' !! p = Some (sub_stop ErrTerminated sb)))).
Proof.
  intros H.
  destruct (index server_three) as [idx|] eqn:Hidx; [|done].
  specialize (H idx _ eq_refl (server_three_order idx Hidx)
                2%nat (entry 2 "carol" query_any "uuid-3").2).
  injection Hidx as <-.
  destruct (heap server_three !! 2%nat) as [sb|] eqn:Hsb; [|done].
  destruct (H sb eq_refl eq_refl eq_refl) as (err & s' & Hsend & Hcases).
  vm_compute in Hsend. injection Hsend as <- <-.
  vm_compute in Hsb. injection Hsb as <-.
  vm_compute in Hcases. destruct Hcases as [[_ [=]]|[Hne _]]. by apply Hne.
Qed.

(** C3, amended.  In a fan-out (no observer veto), for each entry whose query
    matches and that the iteration reaches before a query evaluation fails,
    the sender calls [publish] on its subscription: the message is enqueued
    when the subscription accepts it; when [publish] returns an error the
    entry is collected, and after the iteration its subscription is stopped
    with ErrTerminated and the entry is gone from the index.  No other entry
    is touched or evicted.  [send] returns the first evaluation error or nil,
    never an error for a refusal, and its value only reaches the log of the
    sender loop. *)
Theorem fanout_publishes_and_evicts s idx order data events :
  inv s -> index s = Some idx -> iteration_order idx order ->
  observer_verdict s data events = None ->
  exists s' idx',
    send data events order s
    = Done (ErrWrap "match failed against query: %w" <$> match_error events order, s')
    /\ sender_turn (mkItem data events) order s
       = Done (log_send_error
                 (ErrWrap "match failed against query: %w" <$> match_error events order) s')
    /\ index s' = Some idx'
    /\ (forall p si sb, (p, si) ∈ delivered events order -> heap s !! p = Some sb ->
          let m := message_for sb data events in
          ((sub_publish sb m).2 = None ->
             idx_all idx' !! p = Some si
             /\ exists sb', heap s' !! p = Some sb'
                            /\ sub_queue sb' = sub_queue sb ++ [m]
                            /\ sub_stopErr sb' = None)
          /\ ((sub_publish sb m).2 <> None ->
                idx_all idx' !! p = None
                /\ exists sb', heap s' !! p = Some sb'
                               /\ sub_queue sb' = sub_queue sb
                               /\ sub_stopErr sb' = Some ErrTerminated))
    /\ (forall p si, idx_all idx !! p = Some si -> (p, si) ∉ delivered events order ->
          idx_all idx' !! p = Some si /\ heap s' !! p = heap s !! p)
    /\ (match_error events order = None ->
          forall p si, (p, si) ∈ delivered events order
            <-> idx_all idx !! p = Some si /\ (q_Matches (si_query si) events).1 = true).
Proof.
  intros Hinv Hidx Hord Hver.
  destruct (send_pass data events order s idx Hinv Hidx Hord Hver)
    as (s' & idx' & Hsend & Hidx' & _ & Hsub & _).
  exists s', idx'. split; [done|]. split; [|split; [done|split; [|split]]].
  - unfold sender_turn. simpl. by rewrite Hsend.
  - intros p si sb Hd Hsb m.
    assert (Hall : idx_all idx !! p = Some si).
    { apply (iteration_order_elem idx order); [done|]. by apply delivered_subset in Hd. }
    destruct (inv_live s Hinv idx p si Hidx Hall) as (_ & _ & sb0 & Hsb0 & Hlive).
    assert (sb0 = sb) as -> by congruence.
    destruct (Hsub p si sb Hall Hsb) as (_ & Hok & Hrefused). split.
    + intros Hr. destruct (Hok Hd Hr) as [? ?]. split; [done|].
      eexists. split; [done|]. split; [by apply sub_publish_ok|].
      by rewrite sub_publish_stopErr.
    + intros Hr. destruct (Hrefused Hd Hr) as [? ?]. split; [done|].
      eexists. split; [done|]. split; [apply sub_stop_queue|].
      by apply sub_stop_live.
  - intros p si Hall Hnd.
    destruct (inv_live s Hinv idx p si Hidx Hall) as (_ & _ & sb & Hsb & _).
    destruct (Hsub p si sb Hall Hsb) as (Hno & _). rewrite Hsb. by apply Hno.
  - intros He p si. rewrite (delivered_no_error events order He).
    by rewrite (iteration_order_elem idx order p si Hord).
Qed.

Lemma fanout_publishes_and_evicts_witness :
  exists s', send "block" [] [entry 0 "alice" query_any "uuid-1";
                              entry 1 "bob" query_broken "uuid-2";
                              entry 2 "carol" query_any "uuid-3"] server_three
             = Done (Some (ErrWrap "match failed against query: %w" (ErrNew "malformed")),
                     s').
Proof.
  destruct (index server_three) as [idx|] eqn:Hidx; [|discriminate Hidx].
  destruct (fanout_publishes_and_evicts server_three idx _ "block" []
              (reachable_inv _ server_three_reachable) Hidx
              (server_three_order idx Hidx) eq_refl)
    as (s' & _ & Hsend & _).
  exists s'. exact Hsend.
Defined.

(** ** C4: shutdown *)

Lemma Unsubscribe_fields args s r s' :
  Unsubscribe args s = Done (r, s') ->
  sender s' = sender s /\ done s' = done s /\ queue_closed s' = queue_closed s
  /\ (is_Some (index s) -> is_Some (index s')) /\ (index s = None -> s' = s).
Proof.
  unfold Unsubscribe. destruct (Validate args); [by intros [= <- <-]|].
  destruct (index s) as [idx|] eqn:Hidx; [|by intros [= <- <-]].
  destruct (if decide (ua_Subscriber args ≠ "") then _ else _) as [evict|]; [|done].
  case_decide; [intros [= <- <-]; by rewrite Hidx|].
  destruct (removeSubs _ _ _) as [s2|] eqn:Hrm; [|done]. intros [= <- <-].
  destruct (removeSubs_fields _ _ _ _ Hrm) as (-> & _ & _ & -> & -> & _ & idx' & _ & ->).
  repeat split; eauto. done.
Qed.

Lemma UnsubscribeAll_fields clientID s r s' :
  UnsubscribeAll clientID s = Done (r, s') ->
  sender s' = sender s /\ done s' = done s /\ queue_closed s' = queue_closed s
  /\ is_Some (index s) /\ is_Some (index s').
Proof.
  unfold UnsubscribeAll. destruct (index s) as [idx|] eqn:Hidx; [|done].
  case_decide; [intros [= <- <-]; rewrite Hidx; eauto|].
  destruct (removeSubs _ _ _) as [s2|] eqn:Hrm; [|done]. intros [= <- <-].
  destruct (removeSubs_fields _ _ _ _ Hrm) as (-> & _ & _ & -> & -> & _ & idx' & _ & ->).
  repeat split; eauto.
Qed.

Lemma NewServer_lifecycle options : lifecycle (NewServer options).
Proof.
  unfold NewServer.
  match goal with |- context [foldl apply_option ?s0 options] =>
    destruct (apply_options_fields options s0) as (_ & Hc & Hd & _)
  end.
  split; simpl; try done. by rewrite Hc.
Qed.

Lemma lifecycle_fields s s' :
  sender s' = sender s -> done s' = done s -> queue_closed s' = queue_closed s ->
  (index s' = None -> index s = None) ->
  lifecycle s -> lifecycle s'.
Proof.
  intros Hs Hd Hq Hi [H1 H2 H3]. split; rewrite ?Hs, ?Hd, ?Hq; auto.
Qed.

Local Ltac lifecycle_case :=
  split; simpl in *; intros;
  repeat match goal with
         | H : ?a -> _, H' : ?a |- _ => specialize (H H')
         end;
  try congruence; auto.

Lemma step_lifecycle s s' : step s s' -> lifecycle s -> lifecycle s'.
Proof.
  intros Hstep Hl. pose proof Hl as [Hnew Hclosed Hindex]. destruct Hstep.
  - unfold SubscribeWithArgs in *. destruct (sa_Query args); simplify_eq; [|done].
    destruct (index s) eqn:?; simplify_eq; [|done].
    destruct (contains _ _ _); simplify_eq; [done|].
    destruct (newSubscription _ _ _); simplify_eq; done.
  - destruct (Unsubscribe_fields _ _ _ _ H) as (Hs & Hd & Hq & Hi & _).
    split; rewrite ?Hs, ?Hd, ?Hq; try done.
    intros Hn. apply Hindex. destruct (index s); [|done].
    destruct Hi as [? Hi]; [eauto|]. congruence.
  - destruct (UnsubscribeAll_fields _ _ _ _ H) as (Hs & Hd & Hq & _ & [? Hi]).
    split; rewrite ?Hs, ?Hd, ?Hq; try done. congruence.
  - unfold Observe in *. destruct cb; destruct (observe s); simplify_eq; done.
  - unfold publish in *. destruct (can_proceed c ctx s); [|done].
    destruct c; simplify_eq; try done. destruct (queue_closed s) eqn:?; simplify_eq.
    by apply (lifecycle_fields s).
  - lifecycle_case.
  - unfold OnStop in *. destruct (done s) eqn:Hd; simplify_eq; lifecycle_case.
  - unfold monitor_close in *. destruct (queue_closed s) eqn:Hq; simplify_eq.
    lifecycle_case.
  - destruct (send_locked_fields _ _ _ _ _ _ _ H3) as (Hi & Hs & Hd & Hq & _).
    simpl in *. split; simpl; rewrite ?Hi, ?Hd, ?Hq; auto; congruence.
  - unfold send_evict in *. case_decide.
    + destruct (removeSubs_fields _ _ _ _ H0) as (Hs & _ & _ & Hq & Hd & _ & idx' & _ & Hi).
      destruct err; split; simpl; rewrite ?Hi, ?Hd, ?Hq; auto; congruence.
    + simplify_eq. destruct err; lifecycle_case.
  - unfold sender_exit in *. destruct (index s); simplify_eq. lifecycle_case.
Qed.

Lemma reachable_lifecycle s : reachable s -> lifecycle s.
Proof.
  intros [options Hrtc]. revert s Hrtc.
  apply rtc_ind_r; [apply NewServer_lifecycle|].
  intros s2 s3 _ Hstep IH. by apply (step_lifecycle s2).
Qed.

(** Once stopped, the server stays stopped. *)
Lemma step_stopped s s' : step s s' -> stopped s -> stopped s'.
Proof.
  intros Hstep Hst. pose proof Hst as [Hi Hs Hq Hd]. destruct Hstep; try congruence.
  - unfold SubscribeWithArgs in *. rewrite Hi in *.
    destruct (sa_Query args); by simplify_eq.
  - destruct (Unsubscribe_fields _ _ _ _ H) as (_ & _ & _ & _ & Heq).
    by rewrite (Heq Hi).
  - destruct (UnsubscribeAll_fields _ _ _ _ H) as (_ & _ & _ & [? Hx] & _). congruence.
  - unfold Observe in *. destruct cb; destruct (observe s); by simplify_eq.
  - unfold publish in *. destruct (can_proceed c ctx s); [|done].
    destruct c; simplify_eq; try done. rewrite Hq in *. done.
  - unfold OnStop in *. rewrite Hd in *. by simplify_eq.
  - unfold monitor_close in *. rewrite Hq in *. done.
Qed.

Lemma rtc_stopped s s' : rtc step s s' -> stopped s -> stopped s'.
Proof. induction 1; eauto using step_stopped. Qed.

(** C4, as stated, fails on its second half.  After the shutdown of
    [server_two] a subscription request with a nil query gets the error of
    the nil query, an unsubscribe request without subscriber the error of
    [Validate], and a publish call whose context is done may get [ctx.Err()]:
    each of them is tested before the stopped server is looked at, or next to
    it. *)
Lemma stopped_always_ErrServerStopped_counterexample :
  shutdown server_two = Done server_stopped
  /\ ~ (forall args uuid,
          (SubscribeWithArgs args uuid server_stopped).1 = inr ErrServerStopped)
  /\ ~ (forall args r s',
          Unsubscribe args server_stopped = Done (r, s') -> r = Some ErrServerStopped)
  /\ ~ (forall c ctx msg r s',
          Publish c ctx msg server_stopped = Some (Done (r, s')) ->
          r = Some ErrServerStopped).
Proof.
  split; [apply server_stopped_shutdown|]. split; [|split].
  - intros H. specialize (H (mkSubscribeArgs "carol" None 0 0) "uuid-3"). done.
  - intros H.
    specialize (H (mkUnsubscribeArgs "" "" (Some query_any)) _ _ eq_refl). done.
  - intros H. specialize (H CaseCtx (Some Canceled) "block" _ _ eq_refl). done.
Qed.

(** C4, amended.  When the queue has been closed and drained, the sender
    exits: it stops every subscription left in the index with ErrTerminated
    and sets the index to nil.  From then on the index stays nil;
    SubscribeWithArgs with a non-nil query and Unsubscribe with valid
    arguments return ErrServerStopped and change nothing; a publish call can
    always return ErrServerStopped, and whenever it returns it returns
    ErrServerStopped, or [ctx.Err()] if its context is done, and enqueues
    nothing. *)
Theorem shutdown_stops_server s :
  reachable s -> sender s = Receiving -> queue s = [] -> queue_closed s = true ->
  exists s',
    sender_exit s = Done s' /\ step s s'
    /\ (forall idx p si, index s = Some idx -> idx_all idx !! p = Some si ->
          exists sb, heap s' !! p = Some sb /\ sub_stopErr sb = Some ErrTerminated)
    /\ index s' = None
    /\ forall s'', rtc step s' s'' ->
         index s'' = None
         /\ (forall args uuid,
               sa_Query args <> None ->
               SubscribeWithArgs args uuid s'' = (inr ErrServerStopped, s''))
         /\ (forall args,
               Validate args = None ->
               Unsubscribe args s'' = Done (Some ErrServerStopped, s''))
         /\ (forall ctx data events,
               publish CaseDone ctx data events s''
               = Some (Done (Some ErrServerStopped, s'')))
         /\ (forall c ctx data events r s3,
               publish c ctx data events s'' = Some (Done (r, s3)) ->
               s3 = s'' /\ (r = Some ErrServerStopped \/ (is_Some ctx /\ r = ctx))).
Proof.
  intros Hreach Hsnd Hq Hclosed.
  pose proof (reachable_inv s Hreach) as Hinv.
  pose proof (reachable_lifecycle s Hreach) as Hlc.
  destruct (index s) as [idx|] eqn:Hidx;
    [|pose proof (lc_index s Hlc Hidx); congruence].
  unfold sender_exit. rewrite Hidx. eexists. split; [done|].
  split; [apply step_exit; try done; unfold sender_exit; by rewrite Hidx|].
  split; [|split; [done|]].
  - intros idx' p si [= <-] Hp.
    destruct (inv_live s Hinv idx p si Hidx Hp) as (Hown & _ & sb & Hsb & Hlive).
    exists (sub_stop ErrTerminated sb). split; [|by apply sub_stop_live].
    simpl. rewrite lookup_stop_all, decide_True, Hsb; [done|].
    apply map_Exists_lookup. by exists p, si.
  - intros s'' Hrtc.
    assert (Hst : stopped s'').
    { apply (rtc_stopped _ _ Hrtc). split; simpl; try done. by apply (lc_closed s). }
    destruct Hst as [Hi Hs Hqc Hd]. split; [done|]. split; [|split; [|split]].
    + intros args uuid Hquery. unfold SubscribeWithArgs.
      destruct (sa_Query args); [|done]. by rewrite Hi.
    + intros args Hvalid. unfold Unsubscribe. by rewrite Hvalid, Hi.
    + intros ctx data events. unfold publish. simpl. rewrite Hd.
      by rewrite bool_decide_eq_true_2.
    + intros c ctx data events r s3. unfold publish.
      destruct (can_proceed c ctx s'') eqn:Hcan; [|done].
      destruct c; simpl in *.
      * intros [= <- <-]. auto.
      * intros [= <- <-]. apply bool_decide_eq_true in Hcan. auto.
      * by rewrite Hqc.
Qed.

Lemma shutdown_stops_server_witness :
  exists s', sender_exit server_closing = Done s' /\ index s' = None.
Proof.
  destruct (shutdown_stops_server server_closing server_closing_reachable
              eq_refl eq_refl eq_refl) as (s' & Hexit & _ & _ & Hidx & _).
  exists s'. split; [exact Hexit | exact Hidx].
Defined.

(** ** C5: the outcomes of publish *)

(** As long as the queue has not been closed, a publish call that returns
    has enqueued its item and returned nil, or has returned ErrServerStopped
    on a stopped server, or has returned [ctx.Err()] on a context that is
    done; the two errors leave the queue as it was. *)
Lemma publish_outcomes_open_queue c ctx data events s o :
  queue_closed s = false ->
  publish c ctx data events s = Some o ->
  o = Done (None, with_queue (queue s ++ [mkItem data events]) s)
  \/ (o = Done (Some ErrServerStopped, s) /\ done s = ChClosed)
  \/ (exists e, ctx = Some e /\ o = Done (Some e, s)).
Proof.
  intros Hopen. unfold publish.
  destruct (can_proceed c ctx s) eqn:Hcan; [|done].
  destruct c; simpl in Hcan.
  - intros [= <-]. right. left. split; [done|]. by apply bool_decide_eq_true in Hcan.
  - intros [= <-]. right. right. apply bool_decide_eq_true in Hcan as [e ->]. eauto.
  - rewrite Hopen. intros [= <-]. by left.
Qed.

(** C5 at its failing input.  [server_stopped] is [server_two] after
    shutdown: the shutdown monitor has closed the queue.  In the [select] of
    publish the send on the closed queue can proceed, as can the receive from
    [s.done]; when the send is picked the call panics instead of returning
    ErrServerStopped. *)
Theorem publish_on_closed_queue_panics :
  reachable server_stopped
  /\ can_proceed CaseSend None server_stopped = true
  /\ publish CaseSend None "block" [] server_stopped = Some (Crash closed_send)
  /\ publish CaseDone None "block" [] server_stopped
     = Some (Done (Some ErrServerStopped, server_stopped)).
Proof. split; [apply server_stopped_reachable|]. by vm_compute. Qed.

(** ** C6: SubscribeWithArgs *)

(** C6, as stated, fails.  On [server_two] carol subscribes with a query of
    her own, so the query is not nil, the server is not stopped and nobody
    holds that pair of client and query; the limit is negative, and
    [newSubscription] refuses it. *)
Lemma subscribe_error_cases_counterexample :
  ~ (forall args uuid,
       (exists e, (SubscribeWithArgs args uuid server_two).1 = inr e)
       <-> sa_Query args = None
           \/ index server_two = None
           \/ (exists q idx p si,
                 sa_Query args = Some q /\ index server_two = Some idx
                 /\ idx_all idx !! p = Some si
                 /\ si_clientID si = sa_ClientID args
                 /\ q_String (si_query si) = q_String q)).
Proof.
  intros H.
  destruct (H (mkSubscribeArgs "carol" (Some query_none) (-1) 0) "uuid-3") as [Hx _].
  destruct Hx as [Hnil|[Hstopped|(q & idx & p & si & Hq & Hidx & Hp & Hc & Hs)]].
  - by eexists.
  - done.
  - done.
  - simpl in Hq, Hc. injection Hq as <-. injection Hidx as <-.
    assert (Hin : (p, si) ∈ map_to_list (idx_all (default newSubIndex (index server_two)))).
    { by apply elem_of_map_to_list. }
    remember (map_to_list _) as l eqn:Hl in Hin. vm_compute in Hl. subst l.
    repeat match goal with
           | H : _ ∈ _ :: _ |- _ => apply elem_of_cons in H as [H|H]
           | H : _ ∈ [] |- _ => by apply elem_of_nil in H
           | H : (_, _) = (_, _) |- _ => injection H as -> ->
           end; done.
Qed.

(** C6, amended.  SubscribeWithArgs returns an error exactly when the query
    is nil, the server is stopped, a live subscription with the same client
    ID and query string exists, or [newSubscription] rejects the capacity
    arguments (the limit with 0 read as 1); an error leaves the server as it
    was.  Otherwise it returns a new, live, empty subscription whose limit is
    the normalised one, allocated at a fresh address and filed in the index
    under the client ID and the query. *)
Theorem subscribe_error_cases s args uuid :
  inv s ->
  let limit := if decide (sa_Limit args = 0) then 1 else sa_Limit args in
  ((exists e, (SubscribeWithArgs args uuid s).1 = inr e)
   <-> sa_Query args = None
       \/ index s = None
       \/ (exists q idx p si,
             sa_Query args = Some q /\ index s = Some idx
             /\ idx_all idx !! p = Some si
             /\ si_clientID si = sa_ClientID args
             /\ q_String (si_query si) = q_String q)
       \/ (exists e, newSubscription uuid (sa_Quota args) limit = inr e))
  /\ (forall q idx p si,
        sa_Query args = Some q -> index s = Some idx ->
        idx_all idx !! p = Some si -> si_clientID si = sa_ClientID args ->
        q_String (si_query si) = q_String q ->
        SubscribeWithArgs args uuid s = (inr ErrAlreadySubscribed, s))
  /\ (forall e s', SubscribeWithArgs args uuid s = (inr e, s') -> s' = s)
  /\ (forall p s', SubscribeWithArgs args uuid s = (inl p, s') ->
        exists q idx sb,
          sa_Query args = Some q /\ index s = Some idx
          /\ heap s !! p = None /\ idx_all idx !! p = None
          /\ heap s' !! p = Some sb
          /\ sub_id sb = uuid /\ sub_limit sb = limit
          /\ sub_queue sb = [] /\ sub_stopErr sb = None
          /\ index s' = Some (add p (mkSubInfo (sa_ClientID args) q uuid p) idx)).
Proof.
  intros Hinv limit.
  assert (Hdup : forall q idx, sa_Query args = Some q -> index s = Some idx ->
            (contains idx (sa_ClientID args) (q_String q) = true
             <-> exists p si, idx_all idx !! p = Some si
                              /\ si_clientID si = sa_ClientID args
                              /\ q_String (si_query si) = q_String q)).
  { intros q idx _ Hidx. apply contains_spec. by apply (inv_coherent s). }
  unfold SubscribeWithArgs. fold limit.
  destruct (sa_Query args) as [q|] eqn:Hq.
  2:{ split; [|split; [|split]]; try done.
      - split; [auto|]. intros _. by eexists.
      - by intros e s' [= <- <-]. }
  destruct (index s) as [idx|] eqn:Hidx.
  2:{ split; [|split; [|split]]; try done.
      - split; [auto|]. intros _. by eexists.
      - by intros e s' [= <- <-]. }
  specialize (Hdup q idx eq_refl eq_refl).
  destruct (contains idx (sa_ClientID args) (q_String q)) eqn:Hc.
  { destruct Hdup as [Hdup _]. destruct (Hdup eq_refl) as (p & si & Hp & Hcl & Hqs).
    split; [|split; [|split]]; try done.
    - split; [|intros _; by eexists]. intros _. right. right. left.
      by exists q, idx, p, si.
    - by intros e s' [= <- <-]. }
  assert (Hnodup : ~ exists p si, idx_all idx !! p = Some si
                     /\ si_clientID si = sa_ClientID args
                     /\ q_String (si_query si) = q_String q).
  { intros Hx. apply Hdup in Hx. done. }
  destruct (newSubscription uuid (sa_Quota args) limit) as [sb|e0] eqn:Hnew.
  - split; [|split; [|split]].
    + split; [by intros [e [=]]|].
      intros [[=]|[[=]|[(q' & idx' & p & si & [= <-] & [= <-] & Hx)|[e [=]]]]].
      destruct Hnodup. eauto.
    + intros q' idx' p si [= <-] [= <-] Hp Hcl Hqs. destruct Hnodup. eauto.
    + by intros e s' [=].
    + intros p s' [= <- <-]. exists q, idx, sb. simpl.
      unfold newSubscription in Hnew. case_decide; [done|]. injection Hnew as <-.
      simpl. rewrite lookup_insert_eq. repeat split; try done.
      * destruct (heap s !! next s) eqn:E; [|done].
        pose proof (inv_heap s Hinv (next s) (mk_is_Some _ _ E)). lia.
      * destruct (idx_all idx !! next s) as [si|] eqn:E; [|done].
        destruct (inv_live s Hinv idx _ _ Hidx E) as (_ & Hlt & _). lia.
  - split; [|split; [|split]]; try done.
    + split; [|intros _; by eexists]. intros _. right. right. right. by eexists.
    + intros q' idx' p si [= <-] [= <-] Hp Hcl Hqs. destruct Hnodup. eauto.
    + by intros e s' [= <- <-].
Qed.

Lemma subscribe_error_cases_witness :
  exists e, (SubscribeWithArgs (mkSubscribeArgs "carol" (Some query_none) (-1) 0)
                               "uuid-3" server_two).1 = inr e.
Proof.
  apply (proj1 (subscribe_error_cases server_two
                  (mkSubscribeArgs "carol" (Some query_none) (-1) 0) "uuid-3"
                  (reachable_inv _ server_two_reachable))).
  right. right. right. exists (ErrNew "invalid capacity arguments"). reflexivity.
Defined.

(** ** C7 and C9: Unsubscribe *)

(** [removeSubs] on a set of entries of the index: they leave the index and
    their subscriptions are stopped with the given error; the other entries
    stay, with their subscriptions as they were. *)
Lemma removeSubs_spec evict reason s idx :
  inv s -> index s = Some idx ->
  (forall p si, evict !! p = Some si -> idx_all idx !! p = Some si) ->
  exists s' idx',
    removeSubs evict reason s = Done s' /\ index s' = Some idx'
    /\ forall p si, idx_all idx !! p = Some si ->
         (is_Some (evict !! p) ->
            idx_all idx' !! p = None
            /\ exists sb, heap s' !! p = Some sb /\ sub_stopErr sb = Some reason)
         /\ (evict !! p = None ->
               idx_all idx' !! p = Some si /\ heap s' !! p = heap s !! p).
Proof.
  intros Hinv Hidx Hsub.
  assert (Hown : forall p si, evict !! p = Some si -> si_sub si = p).
  { intros p si Hp. by destruct (inv_live s Hinv idx p si Hidx (Hsub p si Hp)). }
  unfold removeSubs. simpl. rewrite Hidx. eexists _, _.
  split; [done|]. split; [done|]. simpl.
  intros p si Hp. rewrite lookup_difference, lookup_stop_all_own by done. split.
  - intros Hin. rewrite decide_True by done. destruct Hin as [si' ->].
    split; [done|].
    destruct (inv_live s Hinv idx p si Hidx Hp) as (_ & _ & sb & -> & Hlive).
    exists (sub_stop reason sb). split; [done|]. by apply sub_stop_live.
  - intros Hout. rewrite Hout. split; [done|].
    rewrite decide_False; [done|]. by intros [? ?].
Qed.

(** The entries that a valid request selects: those of the subscriber,
    restricted to the query when there is one. *)
Lemma Unsubscribe_selection s idx args :
  inv s -> index s = Some idx ->
  let evict := match ua_Query args with
               | Some q => withQuery (findClientID idx (ua_Subscriber args)) (q_String q)
               | None => findClientID idx (ua_Subscriber args)
               end in
  forall p si,
    evict !! p = Some si
    <-> idx_all idx !! p = Some si
        /\ si_clientID si = ua_Subscriber args
        /\ (forall q, ua_Query args = Some q -> q_String (si_query si) = q_String q).
Proof.
  intros Hinv Hidx evict p si. unfold evict.
  pose proof (coh_client idx (inv_coherent s Hinv idx Hidx)) as Hc.
  destruct (ua_Query args) as [q|].
  - rewrite lookup_withQuery, Hc. split.
    + intros [[? ?] ?]. repeat split; try done. by intros q' [= <-].
    + intros (? & ? & Hq). repeat split; try done. by apply Hq.
  - rewrite Hc. split; [|tauto]. intros [? ?]. repeat split; done.
Qed.

Lemma size_zero_no_entry (m : subInfoSet) :
  size m = 0%nat <-> forall p, m !! p = None.
Proof. by rewrite map_size_empty_iff, map_empty. Qed.

(** C7, as stated, fails on its last part.  On the stopped server a valid
    request evicts nothing, the server being left exactly as it was, and the
    answer is ErrServerStopped, not ErrSubscriptionNotFound. *)
Lemma unsubscribe_not_found_counterexample :
  ~ (forall args r s',
       Validate args = None ->
       Unsubscribe args server_stopped = Done (r, s') ->
       s' = server_stopped ->
       r = Some ErrSubscriptionNotFound).
Proof.
  intros H.
  specialize (H (mkUnsubscribeArgs "bob" "" (Some query_any)) _ _
                eq_refl eq_refl eq_refl).
  done.
Qed.

Lemma Unsubscribe_running s idx args :
  inv s -> index s = Some idx -> Validate args = None ->
  ((forall p si, idx_all idx !! p = Some si -> ~ selected args si) ->
     Unsubscribe args s = Done (Some ErrSubscriptionNotFound, s))
  /\ (forall p0 si0, idx_all idx !! p0 = Some si0 -> selected args si0 ->
        exists s' idx',
          Unsubscribe args s = Done (None, s') /\ index s' = Some idx'
          /\ forall p si, idx_all idx !! p = Some si ->
               (selected args si ->
                  idx_all idx' !! p = None
                  /\ exists sb, heap s' !! p = Some sb
                                /\ sub_stopErr sb = Some ErrUnsubscribed)
               /\ (~ selected args si ->
                     idx_all idx' !! p = Some si /\ heap s' !! p = heap s !! p)).
Proof.
  intros Hinv Hidx Hvalid.
  pose proof (Unsubscribe_selection s idx args Hinv Hidx) as Hsel. simpl in Hsel.
  fold (selected args) in Hsel.
  assert (Hsubscriber : ua_Subscriber args <> "").
  { unfold Validate in Hvalid. by case_decide. }
  unfold Unsubscribe. rewrite Hvalid, Hidx.
  rewrite decide_True by done.
  set (evict := match ua_Query args with
                | Some q => withQuery (findClientID idx (ua_Subscriber args)) (q_String q)
                | None => findClientID idx (ua_Subscriber args)
                end) in *.
  assert (Heq : match ua_Query args with
                | Some q => Done (withQuery (findClientID idx (ua_Subscriber args))
                                            (q_String q))
                | None => Done (findClientID idx (ua_Subscriber args))
                end = Done evict).
  { unfold evict. by destruct (ua_Query args). }
  rewrite Heq. clear Heq. split.
  - intros Hnone. rewrite decide_True; [done|].
    apply size_zero_no_entry. intros p. destruct (evict !! p) as [si|] eqn:E; [|done].
    apply Hsel in E as [Hp Hs]. by destruct (Hnone p si Hp).
  - intros p0 si0 Hp0 Hs0. rewrite decide_False.
    2:{ rewrite size_zero_no_entry. intros Hx. specialize (Hx p0).
        assert (evict !! p0 = Some si0) by (apply Hsel; done). congruence. }
    destruct (removeSubs_spec evict ErrUnsubscribed s idx Hinv Hidx)
      as (s' & idx' & -> & Hidx' & Hrm).
    { intros p si Hp. by apply Hsel in Hp as [? _]. }
    exists s', idx'. split; [done|]. split; [done|].
    intros p si Hp. destruct (Hrm p si Hp) as [Hin Hout]. split.
    + intros Hs. apply Hin. exists si. by apply Hsel.
    + intros Hns. apply Hout. destruct (evict !! p) as [si'|] eqn:E; [|done].
      apply Hsel in E as [Hp' Hs']. assert (si' = si) as -> by congruence. done.
Qed.

(** C7, amended.  Unsubscribe rejects a request whose Subscriber is empty, or
    whose ID is empty and Query nil, without changing the state.  A valid
    request on a stopped server gets ErrServerStopped and changes nothing.  A
    valid request on a server that is not stopped evicts the subscriptions of
    that subscriber, restricted to the query when one is supplied: each is
    stopped with ErrUnsubscribed and leaves the index, the others are left
    alone; when there is none to evict the answer is
    ErrSubscriptionNotFound and nothing changes. *)
Theorem unsubscribe_cases s args :
  inv s ->
  ((ua_Subscriber args = "" \/ (ua_ID args = "" /\ ua_Query args = None)) ->
     exists e, Unsubscribe args s = Done (Some e, s))
  /\ (Validate args = None -> index s = None ->
        Unsubscribe args s = Done (Some ErrServerStopped, s))
  /\ (forall idx, Validate args = None -> index s = Some idx ->
        ((forall p si, idx_all idx !! p = Some si -> ~ selected args si) ->
           Unsubscribe args s = Done (Some ErrSubscriptionNotFound, s))
        /\ (forall p0 si0, idx_all idx !! p0 = Some si0 -> selected args si0 ->
              exists s' idx',
                Unsubscribe args s = Done (None, s') /\ index s' = Some idx'
                /\ forall p si, idx_all idx !! p = Some si ->
                     (selected args si ->
                        idx_all idx' !! p = None
                        /\ exists sb, heap s' !! p = Some sb
                                      /\ sub_stopErr sb = Some ErrUnsubscribed)
                     /\ (~ selected args si ->
                           idx_all idx' !! p = Some si
                           /\ heap s' !! p = heap s !! p))).
Proof.
  intros Hinv. split; [|split].
  - intros Hbad. unfold Unsubscribe, Validate.
    destruct Hbad as [Hs|[Hi Hq]].
    + rewrite decide_True by done. by eexists.
    + case_decide; [by eexists|]. rewrite decide_True by done. by eexists.
  - intros Hvalid Hidx. unfold Unsubscribe. by rewrite Hvalid, Hidx.
  - intros idx Hvalid Hidx. by apply Unsubscribe_running.
Qed.

Lemma unsubscribe_cases_witness :
  exists s' idx',
    Unsubscribe (mkUnsubscribeArgs "bob" "" (Some query_any)) server_two = Done (None, s')
    /\ index s' = Some idx' /\ idx_all idx' !! 1%nat = None.
Proof.
  destruct (index server_two) as [idx|] eqn:Hidx; [|discriminate Hidx].
  destruct (proj2 (proj2 (unsubscribe_cases server_two
              (mkUnsubscribeArgs "bob" "" (Some query_any))
              (reachable_inv _ server_two_reachable))) idx eq_refl Hidx) as [_ Hev].
  injection Hidx as <-.
  destruct (Hev 1%nat (entry 1 "bob" query_any "uuid-2").2 eq_refl)
    as (s' & idx' & Hun & Hidx' & Hall).
  { split; [reflexivity|]. intros q [= <-]. reflexivity. }
  exists s', idx'. split; [exact Hun|]. split; [exact Hidx'|].
  destruct (Hall 1%nat (entry 1 "bob" query_any "uuid-2").2 eq_refl) as [Hgone _].
  apply Hgone. split; [reflexivity|]. intros q [= <-]. reflexivity.
Defined.

Lemma server_bob_reachable : reachable server_bob.
Proof.
  unfold server_bob, subscribe_as.
  eapply step_reachable; [eapply step_reachable; [eapply step_reachable|]|].
  - exists []. apply rtc_refl.
  - by apply step_start.
  - eapply step_subscribe. apply surjective_pairing.
  - eapply step_subscribe. apply surjective_pairing.
Qed.

(** C9.  A request with a subscriber, a subscription ID and no query is
    valid, and beyond the test of [Validate] that the ID is not empty the ID
    plays no part: any other non-empty ID gives the same result, and as soon
    as the subscriber has a subscription in the index the call evicts all the
    subscriptions of that subscriber, whatever their own ID: each leaves the
    index and is stopped with ErrUnsubscribed. *)
Theorem unsubscribe_ignores_ID s args :
  inv s ->
  ua_Subscriber args <> "" -> ua_ID args <> "" -> ua_Query args = None ->
  Validate args = None
  /\ (forall id', id' <> "" ->
        Unsubscribe (mkUnsubscribeArgs (ua_Subscriber args) id' None) s
        = Unsubscribe args s)
  /\ (forall idx p0 si0,
        index s = Some idx -> idx_all idx !! p0 = Some si0 ->
        si_clientID si0 = ua_Subscriber args ->
        exists s' idx',
          Unsubscribe args s = Done (None, s') /\ index s' = Some idx'
          /\ forall p si, idx_all idx !! p = Some si ->
               si_clientID si = ua_Subscriber args ->
               idx_all idx' !! p = None
               /\ exists sb, heap s' !! p = Some sb
                             /\ sub_stopErr sb = Some ErrUnsubscribed).
Proof.
  intros Hinv Hsub Hid Hq.
  assert (Hvalid : Validate args = None).
  { unfold Validate. rewrite decide_False by done. rewrite decide_False; [done|].
    by intros [? _]. }
  split; [done|]. split.
  - intros id' Hid'. unfold Unsubscribe, Validate. simpl.
    rewrite Hq. rewrite !(decide_False (P := ua_Subscriber args = "")) by done.
    rewrite (decide_False (P := id' = "" /\ _)) by (by intros [? _]).
    rewrite (decide_False (P := ua_ID args = "" /\ _)) by (by intros [? _]).
    done.
  - intros idx p0 si0 Hidx Hp0 Hc0.
    assert (Hsel : forall si, selected args si <-> si_clientID si = ua_Subscriber args).
    { intros si. unfold selected. rewrite Hq. split; [by intros [? _]|].
      intros ?. split; [done|]. by intros q [=]. }
    destruct (Unsubscribe_running s idx args Hinv Hidx Hvalid) as [_ Hev].
    destruct (Hev p0 si0 Hp0) as (s' & idx' & Hun & Hidx' & Hall); [by apply Hsel|].
    exists s', idx'. split; [done|]. split; [done|].
    intros p si Hp Hc. destruct (Hall p si Hp) as [Hgone _]. apply Hgone. by apply Hsel.
Qed.

Lemma unsubscribe_ignores_ID_witness :
  exists s' idx',
    Unsubscribe (mkUnsubscribeArgs "bob" "uuid-2" None) server_bob = Done (None, s')
    /\ index s' = Some idx' /\ idx_all idx' !! 0%nat = None.
Proof.
  destruct (index server_bob) as [idx|] eqn:Hidx; [|discriminate Hidx].
  destruct (unsubscribe_ignores_ID server_bob (mkUnsubscribeArgs "bob" "uuid-2" None)
              (reachable_inv _ server_bob_reachable)) as (_ & _ & Hev);
    [discriminate | discriminate | reflexivity |].
  injection Hidx as <-.
  destruct (Hev _ 0%nat (entry 0 "bob" query_any "uuid-1").2 eq_refl eq_refl eq_refl)
    as (s' & idx' & Hun & Hidx' & Hall).
  exists s', idx'. split; [exact Hun|]. split; [exact Hidx'|].
  apply (Hall 0%nat (entry 0 "bob" query_any "uuid-1").2); reflexivity.
Defined.

(** ** C8: uniqueness *)

(** C8.  In every state that the server can reach, no two entries of the
    index share client ID and query string, and every entry of the index is a
    live subscription; whatever step is taken next (subscribe, unsubscribe,
    the eviction of a fan-out, shutdown, ...), this still holds. *)
Theorem subscriptions_unique s :
  reachable s ->
  (forall idx p1 p2 si1 si2,
     index s = Some idx ->
     idx_all idx !! p1 = Some si1 -> idx_all idx !! p2 = Some si2 ->
     si_clientID si1 = si_clientID si2 ->
     q_String (si_query si1) = q_String (si_query si2) ->
     p1 = p2)
  /\ (forall idx p si,
        index s = Some idx -> idx_all idx !! p = Some si ->
        exists sb, heap s !! si_sub si = Some sb /\ sub_stopErr sb = None)
  /\ (forall s' idx', step s s' -> index s' = Some idx' -> idx_unique idx').
Proof.
  intros Hreach. pose proof (reachable_inv s Hreach) as Hinv. split; [|split].
  - intros idx p1 p2 si1 si2 Hidx. by apply (inv_unique s Hinv idx Hidx).
  - intros idx p si Hidx Hp.
    destruct (inv_live s Hinv idx p si Hidx Hp) as (-> & _ & Hsb). done.
  - intros s' idx' Hstep Hidx'. by apply (inv_unique s' (step_inv s s' Hstep Hinv)).
Qed.

Lemma subscriptions_unique_witness :
  idx_unique (default newSubIndex (index server_two)).
Proof.
  intros p1 p2 si1 si2.
  apply (proj1 (subscriptions_unique server_two server_two_reachable)).
  reflexivity.
Defined.

(** ** C10: the operations without a guard *)

(** C10.  Once the sender has exited, the index is nil.  Unsubscribe and
    SubscribeWithArgs test for it and return ErrServerStopped; UnsubscribeAll
    and NumClients (and NumClientSubscriptions) do not: they go to the nil
    index, and panic on it, where an error for the stopped server would be
    expected. *)
Theorem stopped_index_unguarded s s' :
  sender_exit s = Done s' ->
  index s' = None
  /\ (forall clientID, UnsubscribeAll clientID s' = Crash nil_deref)
  /\ NumClients s' = Crash nil_deref
  /\ (forall clientID, NumClientSubscriptions clientID s' = Crash nil_deref)
  /\ (forall args, Validate args = None ->
        Unsubscribe args s' = Done (Some ErrServerStopped, s'))
  /\ (forall args uuid, sa_Query args <> None ->
        SubscribeWithArgs args uuid s' = (inr ErrServerStopped, s')).
Proof.
  unfold sender_exit. destruct (index s) as [idx|]; [|done]. intros [= <-].
  split; [done|]. split; [done|]. split; [done|]. split; [done|]. split.
  - intros args Hvalid. unfold Unsubscribe. by rewrite Hvalid.
  - intros args uuid Hq. unfold SubscribeWithArgs. by destruct (sa_Query args).
Qed.

Lemma stopped_index_unguarded_witness :
  UnsubscribeAll "bob" server_stopped = Crash nil_deref
  /\ NumClients server_stopped = Crash nil_deref.
Proof.
  destruct (stopped_index_unguarded server_closing server_stopped
              server_closing_exit) as (_ & Hall & Hnum & _).
  split; [apply Hall | exact Hnum].
Defined.

(** * Further properties of the server *)

(** ** Observe *)

Lemma removeSubs_observe evict reason s s' :
  removeSubs evict reason s = Done s' ->
  observe s' = observe s /\ queueCap s' = queueCap s.
Proof.
  unfold removeSubs. simpl. destruct (index s); [|done]. by intros [= <-].
Qed.

Lemma send_locked_observe data events order s err evict s1 :
  send_locked data events order s = Done (err, evict, s1) ->
  observe s1 = observe s /\ queueCap s1 = queueCap s.
Proof.
  unfold send_locked. destruct (observe s) as [ob|] eqn:Hob.
  - destruct (call_observe ob (observed s) _) as [e hist]. destruct e.
    + by intros [= <- <- <-].
    + simpl. destruct (index s); [|done].
      destruct (fanout _ _ _ _ _) as [[[e h] ev]|]; [|done]. by intros [= <- <- <-].
  - simpl. destruct (index s); [|done].
    destruct (fanout _ _ _ _ _) as [[[e h] ev]|]; [|done]. by intros [= <- <- <-].
Qed.

(** No step but a successful [Observe] changes the observer, and none
    changes the capacity of the queue. *)
Lemma step_observe_queueCap s s' :
  step s s' ->
  (forall ob, observe s = Some ob -> observe s' = Some ob)
  /\ queueCap s' = queueCap s.
Proof.
  intros Hstep. destruct Hstep.
  - unfold SubscribeWithArgs in *. destruct (sa_Query args); simplify_eq; [|done].
    destruct (index s); simplify_eq; [|done].
    destruct (contains _ _ _); simplify_eq; [done|].
    destruct (newSubscription _ _ _); simplify_eq; done.
  - unfold Unsubscribe in *. destruct (Validate args); simplify_eq; [done|].
    destruct (index s); simplify_eq; [|done].
    destruct (if decide (ua_Subscriber args ≠ "") then _ else _); [|done].
    case_decide; simplify_eq; [done|].
    destruct (removeSubs _ _ _) eqn:Hrm; simplify_eq.
    destruct (removeSubs_observe _ _ _ _ Hrm) as [-> ->]. done.
  - unfold UnsubscribeAll in *. destruct (index s); simplify_eq.
    case_decide; simplify_eq; [done|].
    destruct (removeSubs _ _ _) eqn:Hrm; simplify_eq.
    destruct (removeSubs_observe _ _ _ _ Hrm) as [-> ->]. done.
  - unfold Observe in *. destruct cb; destruct (observe s) eqn:Hob; simplify_eq;
      try done; (split; [by intros ? [= <-] | done]).
  - unfold publish in *. destruct (can_proceed c ctx s); [|done].
    destruct c; simplify_eq; try done. destruct (queue_closed s); simplify_eq. done.
  - done.
  - unfold OnStop in *. destruct (done s); simplify_eq; done.
  - unfold monitor_close in *. destruct (queue_closed s); simplify_eq. done.
  - destruct (send_locked_observe _ _ _ _ _ _ _ H3) as [Ho Hc]. simpl in *.
    rewrite Ho, Hc. done.
  - unfold send_evict in *. case_decide.
    + destruct (removeSubs_observe _ _ _ _ H0) as [Ho Hc].
      destruct err; simpl; rewrite Ho, Hc; done.
    + simplify_eq. destruct err; done.
  - unfold sender_exit in *. destruct (index s); simplify_eq. done.
Qed.

(** X1.  The observer is written once.  After an observer has been
    registered, whatever the server does next it keeps that observer, and
    every further call of [Observe] returns an error and changes nothing. *)
Theorem observer_written_once s s' ob :
  observe s = Some ob -> rtc step s s' ->
  observe s' = Some ob
  /\ forall cb queries, exists e, Observe cb queries s' = (Some e, s').
Proof.
  intros Hob Hrtc.
  assert (Hkept : observe s' = Some ob).
  { induction Hrtc as [|s1 s2 s3 Hstep _ IH]; [done|].
    apply IH. by apply (step_observe_queueCap s1 s2 Hstep). }
  split; [done|]. intros cb queries. unfold Observe. rewrite Hkept.
  destruct cb; by eexists.
Qed.

Lemma observer_written_once_witness :
  observe (subscribe_as "carol" query_none 1 "uuid-3" server_vetoed)
  = Some (mkObserver [] observer_failing).
Proof.
  apply (observer_written_once server_vetoed _ (mkObserver [] observer_failing)
           eq_refl).
  apply rtc_once. eapply step_subscribe. apply surjective_pairing.
Defined.

Lemma ob_matches_spec queries msg :
  ob_matches queries msg = true
  <-> queries = []
      \/ exists q, q ∈ queries /\ q_Matches q (msg_events msg) = (true, None).
Proof.
  destruct queries as [|q0 queries]; [simpl; by intuition|].
  unfold ob_matches. rewrite existsb_exists. split.
  - intros (q & Hin & Hq). right. exists q. split; [by apply list_elem_of_In|].
    destruct (q_Matches q (msg_events msg)) as [m err].
    apply andb_true_iff in Hq as [He ->]. apply bool_decide_eq_true in He. by subst.
  - intros [?|(q & Hin & Hq)]; [done|]. exists q. split; [by apply list_elem_of_In|].
    by rewrite Hq.
Qed.

(** X2.  The filter of the observer.  A message that none of the observer's
    queries matches (a query whose evaluation fails counts as no match, where
    the same failure in the fan-out would end it) does not reach the
    callback: [send] does exactly what it does on the same server without
    observer, and the callback's history is not extended. *)
Theorem observer_filter_bypass s ob data events order :
  observe s = Some ob ->
  ob_queries ob <> [] ->
  (forall q, q ∈ ob_queries ob -> q_Matches q events <> (true, None)) ->
  send data events order s
  = match send data events order (with_observe None s) with
    | Done (err, s') => Done (err, with_observe (Some ob) s')
    | Crash m => Crash m
    end
  /\ forall err s', send data events order s = Done (err, s') ->
       observed s' = observed s.
Proof.
  intros Hob Hne Hnomatch.
  assert (Hm : ob_matches (ob_queries ob) (mkMessage "" data events) = false).
  { apply not_true_iff_false. rewrite ob_matches_spec.
    intros [?|(q & Hin & Hq)]; [done|]. by apply (Hnomatch q). }
  assert (Hsend : send data events order s
                  = match send data events order (with_observe None s) with
                    | Done (err, s') => Done (err, with_observe (Some ob) s')
                    | Crash m => Crash m
                    end).
  { unfold send, send_locked, call_observe. rewrite Hob, Hm. simpl.
    destruct (index s) as [idx|] eqn:Hidx; [|done].
    destruct (fanout data events order (heap s) ∅) as [[[err h] evict]|]; [|done].
    unfold send_evict, removeSubs. simpl. rewrite Hidx.
    destruct s; simpl in *; subst. by case_decide. }
  split; [done|]. intros err s'. rewrite Hsend.
  unfold send, send_locked. simpl.
  destruct (index s) as [idx|] eqn:Hidx; [|done].
  destruct (fanout data events order (heap s) ∅) as [[[err0 h] evict]|]; [|done].
  unfold send_evict, removeSubs. simpl. rewrite Hidx.
  case_decide; by intros [= <- <-].
Qed.

Lemma observer_filter_bypass_witness :
  send "block" [] [entry 0 "alice" query_any "uuid-1"; entry 1 "bob" query_any "uuid-2"]
    (Observe (Some observer_failing) [query_none] server_two).2
  = match send "block" []
            [entry 0 "alice" query_any "uuid-1"; entry 1 "bob" query_any "uuid-2"]
            (with_observe None
               (Observe (Some observer_failing) [query_none] server_two).2) with
    | Done (err, s') =>
        Done (err, with_observe (Some (mkObserver [query_none] observer_failing)) s')
    | Crash m => Crash m
    end.
Proof.
  refine (proj1 (observer_filter_bypass
                   (Observe (Some observer_failing) [query_none] server_two).2
                   (mkObserver [query_none] observer_failing)
                   "block" []
                   [entry 0 "alice" query_any "uuid-1"; entry 1 "bob" query_any "uuid-2"]
                   eq_refl _ _)).
  - discriminate.
  - intros q Hq. apply list_elem_of_singleton in Hq. subst q. discriminate.
Defined.

(** ** Subscribe *)

(** X3.  The deprecated [Subscribe].  Without capacities the subscription
    gets the limit 1, which is also what the explicit capacities 0 and 1
    give; a third capacity and the following ones are never read.  With no
    capacities the arguments always pass [newSubscription]: on a server that
    is not stopped, a non-nil query that the client has not subscribed to yet
    is registered at the next free address, with an empty queue of limit 1. *)
Theorem Subscribe_capacities clientID query uuid s :
  Subscribe clientID query [] uuid s = Subscribe clientID query [1] uuid s
  /\ Subscribe clientID query [0] uuid s = Subscribe clientID query [1] uuid s
  /\ (forall limit quota rest,
        Subscribe clientID query (limit :: quota :: rest) uuid s
        = Subscribe clientID query [limit; quota] uuid s)
  /\ (forall q idx,
        query = Some q -> index s = Some idx ->
        contains idx clientID (q_String q) = false ->
        exists s' idx',
          Subscribe clientID query [] uuid s = (inl (next s), s')
          /\ heap s' !! next s = Some (mkSubscription uuid [] 1 1 None)
          /\ index s' = Some idx'
          /\ idx_all idx' !! next s = Some (mkSubInfo clientID q uuid (next s))).
Proof.
  split; [done|]. split; [|split; [done|]].
  - unfold Subscribe, SubscribeWithArgs. simpl.
    destruct query as [q|]; [|done]. destruct (index s) as [idx|]; [|done].
    by destruct (contains idx clientID (q_String q)).
  - intros q idx -> Hidx Hfresh. unfold Subscribe, SubscribeWithArgs. simpl.
    rewrite Hidx, Hfresh. simpl. eexists _, _.
    split; [done|]. simpl. split; [by rewrite lookup_insert_eq|].
    split; [done|]. unfold add. simpl. by rewrite lookup_insert_eq.
Qed.

Lemma Subscribe_capacities_witness :
  exists s' idx',
    Subscribe "alice" (Some query_any) [] "uuid-1" (run (NewServer []))
    = (inl 0%nat, s')
    /\ heap s' !! 0%nat = Some (mkSubscription "uuid-1" [] 1 1 None)
    /\ index s' = Some idx'
    /\ idx_all idx' !! 0%nat = Some (mkSubInfo "alice" query_any "uuid-1" 0%nat).
Proof.
  apply (proj2 (proj2 (proj2 (Subscribe_capacities "alice" (Some query_any) "uuid-1"
                                (run (NewServer [])))))
           query_any newSubIndex eq_refl eq_refl).
  vm_compute. reflexivity.
Defined.

(** ** UnsubscribeAll and NumClientSubscriptions *)

(** X4.  UnsubscribeAll on a server that is not stopped.  When the client
    has no subscription the answer is ErrSubscriptionNotFound and nothing
    changes.  Otherwise each subscription of the client is stopped with
    ErrUnsubscribed and leaves the index, the subscriptions of the other
    clients are left alone, and the client is left with no subscription.  The
    client ID is not examined: the empty one is served like any other. *)
Theorem UnsubscribeAll_cases s idx clientID :
  reachable s -> index s = Some idx ->
  ((forall p si, idx_all idx !! p = Some si -> si_clientID si <> clientID) ->
     UnsubscribeAll clientID s = Done (Some ErrSubscriptionNotFound, s))
  /\ (forall p0 si0, idx_all idx !! p0 = Some si0 -> si_clientID si0 = clientID ->
        exists s' idx',
          UnsubscribeAll clientID s = Done (None, s') /\ index s' = Some idx'
          /\ NumClientSubscriptions clientID s' = Done 0%nat
          /\ forall p si, idx_all idx !! p = Some si ->
               (si_clientID si = clientID ->
                  idx_all idx' !! p = None
                  /\ exists sb, heap s' !! p = Some sb
                                /\ sub_stopErr sb = Some ErrUnsubscribed)
               /\ (si_clientID si <> clientID ->
                     idx_all idx' !! p = Some si /\ heap s' !! p = heap s !! p)).
Proof.
  intros Hreach Hidx. pose proof (reachable_inv s Hreach) as Hinv.
  pose proof (coh_client idx (inv_coherent s Hinv idx Hidx) clientID) as Hc.
  unfold UnsubscribeAll. rewrite Hidx. split.
  - intros Hnone. rewrite decide_True; [done|].
    apply size_zero_no_entry. intros p.
    destruct (findClientID idx clientID !! p) as [si|] eqn:E; [|done].
    apply Hc in E as [Hp Hs]. by destruct (Hnone p si Hp).
  - intros p0 si0 Hp0 Hs0. rewrite decide_False.
    2:{ rewrite size_zero_no_entry. intros Hx. specialize (Hx p0).
        assert (findClientID idx clientID !! p0 = Some si0) by (by apply Hc).
        congruence. }
    destruct (removeSubs_spec (findClientID idx clientID) ErrUnsubscribed s idx
                Hinv Hidx) as (s' & idx' & Hrm & Hidx' & Hspec).
    { intros p si Hp. by apply Hc in Hp as [? _]. }
    rewrite Hrm. exists s', idx'. split; [done|]. split; [done|]. split.
    + unfold NumClientSubscriptions. rewrite Hidx'. f_equal.
      unfold removeSubs in Hrm. simpl in Hrm. rewrite Hidx in Hrm.
      injection Hrm as <-. simpl in Hidx'. injection Hidx' as <-.
      rewrite findClientID_removeAll. apply size_zero_no_entry. intros p.
      rewrite lookup_difference. by destruct (findClientID idx clientID !! p).
    + intros p si Hp. destruct (Hspec p si Hp) as [Hin Hout]. split.
      * intros Hs. apply Hin. exists si. by apply Hc.
      * intros Hns. apply Hout.
        destruct (findClientID idx clientID !! p) as [si'|] eqn:E; [|done].
        apply Hc in E as [Hp' Hs']. assert (si' = si) as -> by congruence. done.
Qed.

Lemma server_anonymous_reachable : reachable server_anonymous.
Proof.
  unfold server_anonymous, subscribe_as.
  eapply step_reachable; [eapply step_reachable; [eapply step_reachable|]|].
  - exists []. apply rtc_refl.
  - by apply step_start.
  - eapply step_subscribe. apply surjective_pairing.
  - eapply step_subscribe. apply surjective_pairing.
Qed.

Lemma server_anonymous_index :
  exists idx, index server_anonymous = Some idx
    /\ idx_all idx !! 0%nat = Some (mkSubInfo "" query_any "uuid-1" 0%nat)
    /\ idx_all idx !! 1%nat = Some (mkSubInfo "bob" query_any "uuid-2" 1%nat).
Proof. eexists. split; [vm_compute; reflexivity|]. split; vm_compute; reflexivity. Qed.

Lemma UnsubscribeAll_cases_witness :
  exists s' idx',
    UnsubscribeAll "" server_anonymous = Done (None, s')
    /\ index s' = Some idx'
    /\ idx_all idx' !! 0%nat = None
    /\ idx_all idx' !! 1%nat = Some (mkSubInfo "bob" query_any "uuid-2" 1%nat).
Proof.
  destruct server_anonymous_index as (idx & Hidx & H0 & H1).
  destruct (proj2 (UnsubscribeAll_cases server_anonymous idx ""
                     server_anonymous_reachable Hidx) 0%nat _ H0 eq_refl)
    as (s' & idx' & Hun & Hidx' & _ & Hall).
  exists s', idx'. split; [exact Hun|]. split; [exact Hidx'|]. split.
  - by apply (Hall 0%nat _ H0).
  - by apply (Hall 1%nat _ H1).
Defined.

(** X5.  UnsubscribeAll is the Unsubscribe of a request that names the
    client and no query, as long as the client ID is not empty and the server
    is not stopped: both calls return the same error and leave the same
    server. *)
Theorem UnsubscribeAll_as_Unsubscribe s clientID id :
  clientID <> "" -> id <> "" -> index s <> None ->
  Unsubscribe (mkUnsubscribeArgs clientID id None) s = UnsubscribeAll clientID s.
Proof.
  intros Hc Hid Hidx. unfold Unsubscribe, UnsubscribeAll, Validate. simpl.
  rewrite decide_False by done. rewrite decide_False by (by intros [? _]).
  destruct (index s) as [idx|]; [|done]. by rewrite decide_True.
Qed.

Lemma UnsubscribeAll_as_Unsubscribe_witness :
  Unsubscribe (mkUnsubscribeArgs "bob" "uuid-2" None) server_two
  = UnsubscribeAll "bob" server_two.
Proof.
  apply UnsubscribeAll_as_Unsubscribe; [discriminate | discriminate |].
  vm_compute. discriminate.
Defined.

(** X6.  A subscription under the empty client ID.  SubscribeWithArgs does
    not look at the client ID, and registers a subscription for the empty
    one; Validate refuses every request without subscriber, so that no call
    of Unsubscribe, whatever its arguments and its result, removes or stops
    such a subscription. *)
Theorem anonymous_subscription_kept s idx :
  reachable s -> index s = Some idx ->
  (forall q uuid,
     contains idx "" (q_String q) = false ->
     exists s' idx',
       SubscribeWithArgs (mkSubscribeArgs "" (Some q) 0 0) uuid s = (inl (next s), s')
       /\ index s' = Some idx'
       /\ idx_all idx' !! next s = Some (mkSubInfo "" q uuid (next s)))
  /\ (forall p si args r s',
        idx_all idx !! p = Some si -> si_clientID si = "" ->
        Unsubscribe args s = Done (r, s') ->
        heap s' !! p = heap s !! p
        /\ exists idx', index s' = Some idx' /\ idx_all idx' !! p = Some si).
Proof.
  intros Hreach Hidx. pose proof (reachable_inv s Hreach) as Hinv. split.
  - intros q uuid Hfresh. unfold SubscribeWithArgs. simpl.
    rewrite Hidx, Hfresh. simpl. eexists _, _. split; [done|]. simpl.
    split; [done|]. unfold add. simpl. by rewrite lookup_insert_eq.
  - intros p si args r s' Hp Hanon Hun.
    destruct (Validate args) as [e|] eqn:Hvalid.
    { unfold Unsubscribe in Hun. rewrite Hvalid in Hun. injection Hun as <- <-.
      split; [done|]. by exists idx. }
    assert (Hsubscriber : ua_Subscriber args <> "").
    { unfold Validate in Hvalid. by case_decide. }
    assert (Hnot : ~ selected args si).
    { intros [Hs _]. congruence. }
    destruct (Unsubscribe_running s idx args Hinv Hidx Hvalid) as [Hnone Hsome].
    pose proof (Unsubscribe_selection s idx args Hinv Hidx) as Hsel. simpl in Hsel.
    set (evict := match ua_Query args with
                  | Some q => withQuery (findClientID idx (ua_Subscriber args))
                                        (q_String q)
                  | None => findClientID idx (ua_Subscriber args)
                  end) in *.
    destruct (map_choose_or_empty evict) as [(p0 & si0 & Hp0)|Hempty].
    + apply Hsel in Hp0 as (Hp0 & Hs0).
      destruct (Hsome p0 si0 Hp0 Hs0) as (s1 & idx1 & Hun1 & Hidx1 & Hall).
      rewrite Hun1 in Hun. injection Hun as <- <-.
      destruct (Hall p si Hp) as [_ Hkept]. destruct (Hkept Hnot) as [? ?].
      split; [done|]. by exists idx1.
    + rewrite Hnone in Hun.
      * injection Hun as <- <-. split; [done|]. by exists idx.
      * intros p1 si1 Hp1 Hs1.
        assert (evict !! p1 = Some si1) as E by (by apply Hsel).
        rewrite Hempty in E. by rewrite lookup_empty in E.
Qed.

Lemma anonymous_subscription_kept_witness :
  exists r s' idx',
    Unsubscribe (mkUnsubscribeArgs "bob" "" (Some query_any)) server_anonymous
    = Done (r, s')
    /\ index s' = Some idx'
    /\ idx_all idx' !! 0%nat = Some (mkSubInfo "" query_any "uuid-1" 0%nat).
Proof.
  destruct server_anonymous_index as (idx & Hidx & H0 & _).
  destruct (Unsubscribe (mkUnsubscribeArgs "bob" "" (Some query_any)) server_anonymous)
    as [[r s']|m] eqn:Hun; [|vm_compute in Hun; discriminate Hun].
  destruct (proj2 (anonymous_subscription_kept server_anonymous idx
                     server_anonymous_reachable Hidx) 0%nat _ _ r s' H0 eq_refl Hun)
    as (_ & idx' & Hidx' & Hkept).
  by exists r, s', idx'.
Defined.
